(** * The per-file review workflow of [search.py]

    A shallow embedding of [SpotifyPlaylistApp] (file enumeration and
    ordering, query prefill, the add / skip handlers, preview handling)
    together with the properties of the workflow.

    Conventions of the embedding.
    - A Python [str] is a [string]; a character is a code point below 256
      (Latin-1), with Python's [str.lower] and [str.isspace] restricted to
      that range.
    - Paths follow [posixpath].
    - A method of the class is a function from the object's fields [App]
      and the state of the outside world [World] to an outcome (a value or
      a raised exception), the new fields, the new world and the trace of
      the external calls that were made.  An exception leaves the
      mutations done before it in place, as in Python. *)

From Stdlib Require Import ZArith Lia Bool Ascii String Sorted Permutation.
From Stdlib Require Import DecimalString.
From stdpp Require Import base list strings.

Local Open Scope Z_scope.

(** ** Python strings *)

Module PyStr.

Definition code (c : ascii) : N := N_of_ascii c.

(** [str.lower] on one Latin-1 character: A-Z, and the accented capitals
    U+00C0..U+00DE except the multiplication sign U+00D7. *)
Definition lower_char (c : ascii) : ascii :=
  let n := code c in
  if ((65 <=? n) && (n <=? 90) || (192 <=? n) && (n <=? 214)
      || (216 <=? n) && (n <=? 222))%N
  then ascii_of_N (n + 32) else c.

Fixpoint lower (s : string) : string :=
  match s with
  | EmptyString => EmptyString
  | String c s' => String (lower_char c) (lower s')
  end.

(** [str.isspace] on one Latin-1 character. *)
Definition isspace (c : ascii) : bool :=
  let n := code c in
  ((9 <=? n) && (n <=? 13) || (28 <=? n) && (n <=? 32)
   || (n =? 133) || (n =? 160))%N.

Fixpoint lstrip (s : string) : string :=
  match s with
  | EmptyString => EmptyString
  | String c s' => if isspace c then lstrip s' else s
  end.

Fixpoint rstrip (s : string) : string :=
  match s with
  | EmptyString => EmptyString
  | String c s' =>
      match rstrip s' with
      | EmptyString => if isspace c then EmptyString else String c EmptyString
      | r => String c r
      end
  end.

Definition strip (s : string) : string := rstrip (lstrip s).

(** Truth value of a [str] and of an [Optional[str]]. *)
Definition nonempty (s : string) : bool :=
  match s with EmptyString => false | String _ _ => true end.

Definition truthy (o : option string) : bool :=
  match o with None => false | Some s => nonempty s end.

(** [s.rfind(c)] for a one-character needle: the highest index, or -1. *)
Fixpoint rfind (c : ascii) (s : string) : Z :=
  match s with
  | EmptyString => -1
  | String a s' =>
      let r := rfind c s' in
      if 0 <=? r then r + 1 else if Ascii.eqb a c then 0 else -1
  end.

Fixpoint drop (n : nat) (s : string) : string :=
  match n, s with
  | O, _ => s
  | S _, EmptyString => EmptyString
  | S k, String _ s' => drop k s'
  end.

Fixpoint take (n : nat) (s : string) : string :=
  match n, s with
  | O, _ => EmptyString
  | S _, EmptyString => EmptyString
  | S k, String c s' => String c (take k s')
  end.

(** Slices [s[i:]], [s[:j]] and [s[i:j]]; every index that reaches a slice
    in the embedded code is non-negative. *)
Definition slice_from (s : string) (i : Z) : string := drop (Z.to_nat i) s.
Definition slice_to (s : string) (j : Z) : string := take (Z.to_nat j) s.
Definition slice (s : string) (i j : Z) : string :=
  take (Z.to_nat (j - i)) (drop (Z.to_nat i) s).

Definition startswith (c : ascii) (s : string) : bool :=
  match s with String a _ => Ascii.eqb a c | EmptyString => false end.

Fixpoint endswith (c : ascii) (s : string) : bool :=
  match s with
  | EmptyString => false
  | String a EmptyString => Ascii.eqb a c
  | String _ s' => endswith c s'
  end.

(** A string in which the character [c] does not occur. *)
Fixpoint free_of (c : ascii) (s : string) : bool :=
  match s with
  | EmptyString => true
  | String a s' => negb (Ascii.eqb a c) && free_of c s'
  end.

(** [sep.join(parts)] *)
Fixpoint join (sep : string) (parts : list string) : string :=
  match parts with
  | [] => EmptyString
  | [p] => p
  | p :: ps => String.append p (String.append sep (join sep ps))
  end.

(** [str(n)] for an [int], and the format [{n:02d}]. *)
Definition of_int (n : Z) : string := NilZero.string_of_int (Z.to_int n).

Definition of_int_02d (n : Z) : string :=
  if (0 <=? n) && (n <? 10) then String "0"%char (of_int n) else of_int n.

(** [a < b] on [str]: lexicographic on code points. *)
Definition lt (a b : string) : bool := String.ltb a b.

End PyStr.

(** ** [posixpath] *)

Module Path.

Definition sep : ascii := "/"%char.
Definition extsep : ascii := "."%char.

(** [os.path.basename] *)
Definition basename (p : string) : string :=
  let i := PyStr.rfind sep p + 1 in
  PyStr.slice_from p i.

(** [os.path.join(a, b)] *)
Definition join (a b : string) : string :=
  if PyStr.startswith sep b then b
  else if negb (PyStr.nonempty a) || PyStr.endswith sep a
       then String.append a b
       else String.append a (String sep b).

(** The [while] loop of [genericpath._splitext]: [n] is the number of
    iterations left, [dotIndex - filenameIndex]; the loop ends without a
    split when it reaches 0. *)
Fixpoint splitext_loop (p : string) (dotIndex : Z) (n : nat)
    (filenameIndex : Z) : string * string :=
  match n with
  | O => (p, EmptyString)
  | S k =>
      if negb (String.eqb (PyStr.slice p filenameIndex (filenameIndex + 1))
                          (String extsep EmptyString))
      then (PyStr.slice_to p dotIndex, PyStr.slice_from p dotIndex)
      else splitext_loop p dotIndex k (filenameIndex + 1)
  end.

(** [os.path.splitext] *)
Definition splitext (p : string) : string * string :=
  let sepIndex := PyStr.rfind sep p in
  let dotIndex := PyStr.rfind extsep p in
  if sepIndex <? dotIndex then
    let filenameIndex := sepIndex + 1 in
    splitext_loop p dotIndex (Z.to_nat (dotIndex - filenameIndex))
      filenameIndex
  else (p, EmptyString).

End Path.

(** ** Candidate files: the directory walk, the deny-list and the sort *)

(** A directory as [os.walk] sees it: the names of its regular files and
    its sub-directories, each in the order [os.scandir] lists them. *)
#[warnings="-register-all"]
Inductive tree : Type :=
  | Node (files : list string) (dirs : list (string * tree)).

(** [os.walk(top)], top-down: the triple of the directory itself, then the
    walks of its sub-directories. *)
Fixpoint os_walk (top : string) (t : tree)
    : list (string * list string * list string) :=
  match t with
  | Node files dirs =>
      (top, map fst dirs, files)
      :: flat_map (fun d => os_walk (Path.join top (fst d)) (snd d)) dirs
  end.

Definition BLACKLIST_EXTENSIONS : list string :=
  [".jpg"; ".jpeg"; ".png"; ".gif"].

(** [x in l] for a list of [str]. *)
Definition str_in (x : string) (l : list string) : bool :=
  existsb (String.eqb x) l.

(** The test of [get_audio_files] on one file name:
    [ext.lower() not in self.blacklisted_extensions].  The attribute is
    bound to [BLACKLIST_EXTENSIONS] in [__init__] and never reassigned. *)
Definition not_blacklisted (filename : string) : bool :=
  let ext := snd (Path.splitext filename) in
  negb (str_in (PyStr.lower ext) BLACKLIST_EXTENSIONS).

(** [get_audio_files]: the two nested [for] loops, appending in order. *)
Definition get_audio_files (directory : string) (t : tree) : list string :=
  flat_map
    (fun '(root, _, files) =>
       map (Path.join root) (filter (fun f => not_blacklisted f = true) files))
    (os_walk directory t).

(** The sort key of [select_directory]. *)
Definition sort_key (x : string) : string :=
  PyStr.lower (Path.basename x).

(** [list.sort(key=...)] is a stable sort that compares keys with [<]
    only.  The result of a stable sort is determined by its input, so
    the insertion sort below, which puts an element before the first
    later element whose key is not smaller, computes it. *)
Fixpoint insert_by_key (key : string -> string) (x : string)
    (l : list string) : list string :=
  match l with
  | [] => [x]
  | y :: l' =>
      if PyStr.lt (key y) (key x) then y :: insert_by_key key x l'
      else x :: y :: l'
  end.

Definition list_sort (key : string -> string) (l : list string)
    : list string :=
  foldr (insert_by_key key) [] l.

(** What [select_directory] stores in [self.audio_files]. *)
Definition candidate_files (directory : string) (t : tree) : list string :=
  list_sort sort_key (get_audio_files directory t).

(** Every file the recursive walk finds, as a path. *)
Definition walked_files (directory : string) (t : tree) : list string :=
  flat_map (fun '(root, _, files) => map (Path.join root) files)
    (os_walk directory t).

(** The names the walk lists are names of directory entries: they do not
    contain the path separator. *)
Definition plain_names (directory : string) (t : tree) : bool :=
  forallb (fun '(_, _, files) => forallb (PyStr.free_of Path.sep) files)
    (os_walk directory t).

(** [x] comes no later than [y] in the order of case-insensitive
    basenames. *)
Definition basename_le (x y : string) : Prop :=
  String.leb (PyStr.lower (Path.basename x)) (PyStr.lower (Path.basename y))
  = true.

(** ** The outside world *)

(** A track object of the catalog, as [sp.search] and [sp.track] return
    it. *)
Record TrackObject : Type := mkTrack {
  tr_type : string;
  tr_uri : string;
  tr_name : string;
  tr_artists : list string;
  tr_album : string;
  tr_duration_ms : Z;
  tr_preview_url : option string;
  tr_external_url : string
}.

Record Playlist : Type := mkPlaylist {
  pl_user : string;
  pl_name : string;
  pl_public : bool;
  pl_items : list string
}.

(** What [MutagenFile(filepath)] gives: it raises, or the object is
    falsy, or it is a file object with its (truthy) tags, already
    converted by [str], and the length of its (truthy) [info]. *)
Inductive MutagenResult : Type :=
  | MutagenRaises
  | MutagenFalsy
  | MutagenMeta (tags : option (list (string * string)))
                (info_length : option Z).

Inductive exn : Type :=
  | AttributeError | IndexError | TypeError | SpotifyException
  | RequestException | HTTPError | PygameError | OSError.

(** The text of a message box, by the call that shows it. *)
Inductive Message : Type :=
  | MsgDone (skipped : list string)
  | MsgNoUrl
  | MsgAddedByUrl (name : string)
  | MsgInvalidTrack
  | MsgInvalidUrl (e : exn)
  | MsgPreviewUnavailable
  | MsgPreviewError (e : exn)
  | MsgPlaybackError (e : exn).

Inductive BoxKind : Type := ShowInfo | ShowError.

(** The external calls a method makes, in order, with their results. *)
Inductive Event : Type :=
  | CurrentUser (ok : bool)
  | UserPlaylistCreate (name : string) (created : option nat)
  | TrackLookup (ref : string) (found : option (option TrackObject))
  | PlaylistAddItems (pid : option nat) (items : list string) (ok : bool)
  | Search (q : string) (limit : nat) (found : option (list TrackObject))
  | MessageBox (kind : BoxKind) (m : Message)
  | DestroyResults
  | MusicStop
  | MusicLoad (p : string) (ok : bool)
  | MusicPlay (ok : bool)
  | OsRemove (p : string) (ok : bool)
  | HttpGet (url : string) (ok : bool)
  | RaiseForStatus (ok : bool)
  | TempFile (p : string)
  | Traceback (e : exn).

(** The catalog service (playlists are identified by their position),
    the local machine, the [pygame.mixer.music] stream, and the script
    of failures: every call that can fail for a reason outside the
    program takes the next entry, [true] meaning that this call raises
    and has no effect; an exhausted script means no more failures. *)
Record World : Type := mkWorld {
  user_id : string;
  playlists : list Playlist;
  search_index : string -> list TrackObject;
  track_index : string -> option (option TrackObject);
  dir_tree : string -> tree;
  mutagen : string -> MutagenResult;
  disk : list string;
  tmp_counter : Z;
  music_loaded : option string;
  music_busy : bool;
  faults : list bool
}.

Definition set_playlists (v : list Playlist) (w : World) : World :=
  mkWorld (user_id w) v (search_index w) (track_index w) (dir_tree w)
    (mutagen w) (disk w) (tmp_counter w) (music_loaded w) (music_busy w)
    (faults w).

Definition set_disk (v : list string) (w : World) : World :=
  mkWorld (user_id w) (playlists w) (search_index w) (track_index w)
    (dir_tree w) (mutagen w) v (tmp_counter w) (music_loaded w)
    (music_busy w) (faults w).

Definition set_tmp_counter (v : Z) (w : World) : World :=
  mkWorld (user_id w) (playlists w) (search_index w) (track_index w)
    (dir_tree w) (mutagen w) (disk w) v (music_loaded w) (music_busy w)
    (faults w).

Definition set_music (l : option string) (b : bool) (w : World) : World :=
  mkWorld (user_id w) (playlists w) (search_index w) (track_index w)
    (dir_tree w) (mutagen w) (disk w) (tmp_counter w) l b (faults w).

Definition set_faults (v : list bool) (w : World) : World :=
  mkWorld (user_id w) (playlists w) (search_index w) (track_index w)
    (dir_tree w) (mutagen w) (disk w) (tmp_counter w) (music_loaded w)
    (music_busy w) v.

(** The items of a playlist of the catalog; none for an unknown id. *)
Definition playlist_items (w : World) (pid : nat) : list string :=
  match playlists w !! pid with
  | Some p => pl_items p
  | None => []
  end.

(** ** The fields of [SpotifyPlaylistApp] *)

Inductive Spotify : Type := SpotifyClient.

(** The widgets of [self.results_frame]: the "No results found." label, a
    result row (its radio button with value and text, its Visit button,
    and the preview buttons when the track has a preview), and the
    "Add to Playlist" button. *)
Inductive Widget : Type :=
  | NoResultsLabel
  | TrackRow (value text visit : string) (preview : option string)
  | AddButton.

(** What [self.main_frame] shows: the welcome screen with its
    "Select Directory" button, or the prompt for one file. *)
Inductive Screen : Type :=
  | InitialUI
  | FilePromptUI (filename meta_label : string).

Record App : Type := mkApp {
  sp : option Spotify;
  selected_directory : option string;
  playlist_id : option nat;
  playlist_name : option string;
  audio_files : list string;
  skipped_songs : list string;
  current_index : nat;
  current_filepath : option string;
  local_title : option string;
  local_artist : option string;
  local_duration_str : option string;
  preview_temp_path : option string;
  main_frame : Screen;
  query_var : string;
  url_var : string;
  track_var : option string;
  results_frame : list Widget
}.

Definition set_selected_directory (v : option string) (a : App) : App :=
  mkApp (sp a) v (playlist_id a) (playlist_name a) (audio_files a)
    (skipped_songs a) (current_index a) (current_filepath a) (local_title a)
    (local_artist a) (local_duration_str a) (preview_temp_path a)
    (main_frame a) (query_var a) (url_var a) (track_var a) (results_frame a).

Definition set_playlist_id (v : option nat) (a : App) : App :=
  mkApp (sp a) (selected_directory a) v (playlist_name a) (audio_files a)
    (skipped_songs a) (current_index a) (current_filepath a) (local_title a)
    (local_artist a) (local_duration_str a) (preview_temp_path a)
    (main_frame a) (query_var a) (url_var a) (track_var a) (results_frame a).

Definition set_playlist_name (v : option string) (a : App) : App :=
  mkApp (sp a) (selected_directory a) (playlist_id a) v (audio_files a)
    (skipped_songs a) (current_index a) (current_filepath a) (local_title a)
    (local_artist a) (local_duration_str a) (preview_temp_path a)
    (main_frame a) (query_var a) (url_var a) (track_var a) (results_frame a).

Definition set_audio_files (v : list string) (a : App) : App :=
  mkApp (sp a) (selected_directory a) (playlist_id a) (playlist_name a) v
    (skipped_songs a) (current_index a) (current_filepath a) (local_title a)
    (local_artist a) (local_duration_str a) (preview_temp_path a)
    (main_frame a) (query_var a) (url_var a) (track_var a) (results_frame a).

Definition set_skipped_songs (v : list string) (a : App) : App :=
  mkApp (sp a) (selected_directory a) (playlist_id a) (playlist_name a)
    (audio_files a) v (current_index a) (current_filepath a) (local_title a)
    (local_artist a) (local_duration_str a) (preview_temp_path a)
    (main_frame a) (query_var a) (url_var a) (track_var a) (results_frame a).

Definition set_current_index (v : nat) (a : App) : App :=
  mkApp (sp a) (selected_directory a) (playlist_id a) (playlist_name a)
    (audio_files a) (skipped_songs a) v (current_filepath a) (local_title a)
    (local_artist a) (local_duration_str a) (preview_temp_path a)
    (main_frame a) (query_var a) (url_var a) (track_var a) (results_frame a).

Definition set_current_filepath (v : option string) (a : App) : App :=
  mkApp (sp a) (selected_directory a) (playlist_id a) (playlist_name a)
    (audio_files a) (skipped_songs a) (current_index a) v (local_title a)
    (local_artist a) (local_duration_str a) (preview_temp_path a)
    (main_frame a) (query_var a) (url_var a) (track_var a) (results_frame a).

Definition set_local_metadata (t r d : option string) (a : App) : App :=
  mkApp (sp a) (selected_directory a) (playlist_id a) (playlist_name a)
    (audio_files a) (skipped_songs a) (current_index a) (current_filepath a)
    t r d (preview_temp_path a)
    (main_frame a) (query_var a) (url_var a) (track_var a) (results_frame a).

Definition set_preview_temp_path (v : option string) (a : App) : App :=
  mkApp (sp a) (selected_directory a) (playlist_id a) (playlist_name a)
    (audio_files a) (skipped_songs a) (current_index a) (current_filepath a)
    (local_title a) (local_artist a) (local_duration_str a) v
    (main_frame a) (query_var a) (url_var a) (track_var a) (results_frame a).

Definition set_main_frame (v : Screen) (a : App) : App :=
  mkApp (sp a) (selected_directory a) (playlist_id a) (playlist_name a)
    (audio_files a) (skipped_songs a) (current_index a) (current_filepath a)
    (local_title a) (local_artist a) (local_duration_str a)
    (preview_temp_path a) v (query_var a) (url_var a) (track_var a)
    (results_frame a).

Definition set_query_var (v : string) (a : App) : App :=
  mkApp (sp a) (selected_directory a) (playlist_id a) (playlist_name a)
    (audio_files a) (skipped_songs a) (current_index a) (current_filepath a)
    (local_title a) (local_artist a) (local_duration_str a)
    (preview_temp_path a) (main_frame a) v (url_var a) (track_var a)
    (results_frame a).

Definition set_url_var (v : string) (a : App) : App :=
  mkApp (sp a) (selected_directory a) (playlist_id a) (playlist_name a)
    (audio_files a) (skipped_songs a) (current_index a) (current_filepath a)
    (local_title a) (local_artist a) (local_duration_str a)
    (preview_temp_path a) (main_frame a) (query_var a) v (track_var a)
    (results_frame a).

Definition set_track_var (v : option string) (a : App) : App :=
  mkApp (sp a) (selected_directory a) (playlist_id a) (playlist_name a)
    (audio_files a) (skipped_songs a) (current_index a) (current_filepath a)
    (local_title a) (local_artist a) (local_duration_str a)
    (preview_temp_path a) (main_frame a) (query_var a) (url_var a) v
    (results_frame a).

Definition set_results_frame (v : list Widget) (a : App) : App :=
  mkApp (sp a) (selected_directory a) (playlist_id a) (playlist_name a)
    (audio_files a) (skipped_songs a) (current_index a) (current_filepath a)
    (local_title a) (local_artist a) (local_duration_str a)
    (preview_temp_path a) (main_frame a) (query_var a) (url_var a)
    (track_var a) v.

(** The fields as [__init__] leaves them; [client] is [None] when the
    construction of the client raised [SpotifyOauthError]. *)
Definition init (client : option Spotify) : App :=
  mkApp client None None None [] [] 0%nat None None None None None InitialUI
    EmptyString EmptyString None [].

(** ** Methods as state transformers with exceptions and a trace *)

Inductive outcome (A : Type) : Type :=
  | Ret (x : A)
  | Raise (e : exn).
Arguments Ret {A} x.
Arguments Raise {A} e.

Record Result (A : Type) : Type := mkResult {
  out : outcome A;
  app : App;
  world : World;
  trace : list Event
}.
Arguments mkResult {A} out app world trace.
Arguments out {A} r.
Arguments app {A} r.
Arguments world {A} r.
Arguments trace {A} r.

Definition M (A : Type) : Type := App -> World -> Result A.

Definition ret {A} (x : A) : M A := fun a w => mkResult (Ret x) a w [].

Definition raise {A} (e : exn) : M A := fun a w => mkResult (Raise e) a w [].

Definition bind {A B} (m : M A) (f : A -> M B) : M B := fun a w =>
  match m a w with
  | mkResult (Ret x) a1 w1 t1 =>
      match f x a1 w1 with
      | mkResult o a2 w2 t2 => mkResult o a2 w2 (t1 ++ t2)
      end
  | mkResult (Raise e) a1 w1 t1 => mkResult (Raise e) a1 w1 t1
  end.

(** [try: m  except Exception as e: h e] *)
Definition try_except {A} (m : M A) (h : exn -> M A) : M A := fun a w =>
  match m a w with
  | mkResult (Ret x) a1 w1 t1 => mkResult (Ret x) a1 w1 t1
  | mkResult (Raise e) a1 w1 t1 =>
      match h e a1 w1 with
      | mkResult o a2 w2 t2 => mkResult o a2 w2 (t1 ++ t2)
      end
  end.

Declare Scope py_scope.
Delimit Scope py_scope with py.
Notation "x <- m ;; k" := (bind m (fun x => k))
  (at level 100, m at next level, right associativity) : py_scope.
Notation "m ;; k" := (bind m (fun _ => k))
  (at level 100, right associativity) : py_scope.
Local Open Scope py_scope.

Definition self : M App := fun a w => mkResult (Ret a) a w [].
Definition assign (f : App -> App) : M unit :=
  fun a w => mkResult (Ret tt) (f a) w [].
Definition outside : M World := fun a w => mkResult (Ret w) a w [].
Definition effect (f : World -> World) : M unit :=
  fun a w => mkResult (Ret tt) a (f w) [].
Definition emit (e : Event) : M unit :=
  fun a w => mkResult (Ret tt) a w [e].

(** The next entry of the script of failures. *)
Definition fault : M bool := fun a w =>
  match faults w with
  | [] => mkResult (Ret false) a w []
  | b :: rest => mkResult (Ret b) a (set_faults rest w) []
  end.

(** *** The catalog client [self.sp] *)

(** A call of the client that fails raises.  The model has one
    exception for that, [SpotifyException], and does not tell it from
    the exceptions of the transport that the client lets through; a
    call that fails has no effect on the service. *)

(** Evaluating [self.sp.<method>]: an [AttributeError] on [None]. *)
Definition sp_attr : M unit :=
  a <- self ;;
  match sp a with
  | None => raise AttributeError
  | Some SpotifyClient => ret tt
  end.

(** [self.sp.current_user()["id"]] *)
Definition sp_current_user : M string :=
  sp_attr ;;
  f <- fault ;;
  emit (CurrentUser (negb f)) ;;
  if f then raise SpotifyException
  else w <- outside ;; ret (user_id w).

(** [self.sp.user_playlist_create(user, name, public)["id"]] *)
Definition sp_user_playlist_create (user name : string) (public : bool)
    : M nat :=
  sp_attr ;;
  f <- fault ;;
  if f then emit (UserPlaylistCreate name None) ;; raise SpotifyException
  else
    w <- outside ;;
    let pid := length (playlists w) in
    effect (set_playlists (playlists w ++ [mkPlaylist user name public []])) ;;
    emit (UserPlaylistCreate name (Some pid)) ;;
    ret pid.

(** [self.sp.track(ref)]: raises for a reference the service rejects. *)
Definition sp_track (ref : string) : M (option TrackObject) :=
  sp_attr ;;
  f <- fault ;;
  w <- outside ;;
  match (if f then None else track_index w ref) with
  | None => emit (TrackLookup ref None) ;; raise SpotifyException
  | Some found => emit (TrackLookup ref (Some found)) ;; ret found
  end.

Definition add_items (items : list string) (p : Playlist) : Playlist :=
  mkPlaylist (pl_user p) (pl_name p) (pl_public p) (pl_items p ++ items).

(** [self.sp.playlist_add_items(pid, items)]: the client raises on [None]
    before any request; the service rejects an unknown playlist. *)
Definition sp_playlist_add_items (pid : option nat) (items : list string)
    : M unit :=
  sp_attr ;;
  match pid with
  | None => emit (PlaylistAddItems None items false) ;; raise TypeError
  | Some i =>
      f <- fault ;;
      w <- outside ;;
      if f || negb (bool_decide (i < length (playlists w))%nat)
      then emit (PlaylistAddItems pid items false) ;; raise SpotifyException
      else
        effect (set_playlists (alter (add_items items) i (playlists w))) ;;
        emit (PlaylistAddItems pid items true)
  end.

(** [self.sp.search(q, limit, type='track')] followed by
    [results.get('tracks', {}).get('items', [])]; the service returns at
    most [limit] items. *)
Definition sp_search (q : string) (limit : nat) : M (list TrackObject) :=
  sp_attr ;;
  f <- fault ;;
  if f then emit (Search q limit None) ;; raise SpotifyException
  else
    w <- outside ;;
    let items := take limit (search_index w q) in
    emit (Search q limit (Some items)) ;;
    ret items.

(** *** [pygame.mixer.music], [os], [requests], [tempfile] *)

Definition music_stop : M unit :=
  effect (fun w => set_music (music_loaded w) false w) ;;
  emit MusicStop.

Definition music_load (p : string) : M unit :=
  f <- fault ;;
  if f then emit (MusicLoad p false) ;; raise PygameError
  else effect (set_music (Some p) false) ;; emit (MusicLoad p true).

Definition music_play : M unit :=
  w <- outside ;;
  match music_loaded w with
  | None => emit (MusicPlay false) ;; raise PygameError
  | Some p => effect (set_music (Some p) true) ;; emit (MusicPlay true)
  end.

Definition path_exists (w : World) (p : string) : bool :=
  str_in p (disk w).

Definition os_remove (p : string) : M unit :=
  f <- fault ;;
  w <- outside ;;
  if f || negb (path_exists w p)
  then emit (OsRemove p false) ;; raise OSError
  else
    effect (set_disk (filter (fun q => q <> p) (disk w))) ;;
    emit (OsRemove p true).

Definition requests_get (url : string) : M unit :=
  f <- fault ;;
  emit (HttpGet url (negb f)) ;;
  if f then raise RequestException else ret tt.

Definition raise_for_status : M unit :=
  f <- fault ;;
  emit (RaiseForStatus (negb f)) ;;
  if f then raise HTTPError else ret tt.

(** [tempfile.NamedTemporaryFile(delete=False, suffix=".mp3")], written
    and closed; the name is taken from a counter. *)
Definition named_temporary_file : M string :=
  w <- outside ;;
  let p := String.append "/tmp/tmp"
             (String.append (PyStr.of_int (tmp_counter w)) ".mp3") in
  effect (fun w => set_tmp_counter (tmp_counter w + 1) (set_disk (disk w ++ [p]) w)) ;;
  emit (TempFile p) ;;
  ret p.

Definition messagebox (kind : BoxKind) (m : Message) : M unit :=
  emit (MessageBox kind m).

(** ** The methods of [SpotifyPlaylistApp] *)

(** [draw_initial_ui]: the children of [main_frame], the results among
    them, are destroyed and the welcome screen is drawn. *)
Definition draw_initial_ui : M unit :=
  assign (set_results_frame []) ;;
  assign (set_main_frame InitialUI).

Definition create_playlist : M unit :=
  a <- self ;;
  match playlist_name a, sp a with
  | Some name, Some _ =>
      if PyStr.nonempty name then
        user <- sp_current_user ;;
        new_playlist <- sp_user_playlist_create user name true ;;
        assign (set_playlist_id (Some new_playlist))
      else ret tt
  | _, _ => ret tt
  end.

(** [f"{n // 60}:{n % 60:02d}"] *)
Definition format_duration (n : Z) : string :=
  String.append (PyStr.of_int (n / 60))
    (String ":"%char (PyStr.of_int_02d (n mod 60))).

(** [key in tags] and [str(tags[key])] *)
Fixpoint tag (key : string) (tags : list (string * string)) : option string :=
  match tags with
  | [] => None
  | (k, v) :: rest => if String.eqb k key then Some v else tag key rest
  end.

(** [get_file_metadata]: the title and artist are the tags [TIT2] and
    [TPE1] when the file has them, the duration comes from [info]; an
    exception of the reader is caught and leaves [None]. *)
Definition get_file_metadata (w : World) (filepath : string)
    : option string * option string * option string :=
  match mutagen w filepath with
  | MutagenRaises => (None, None, None)
  | MutagenFalsy => (None, None, None)
  | MutagenMeta tags info_length =>
      let title := match tags with Some t => tag "TIT2" t | None => None end in
      let artist := match tags with Some t => tag "TPE1" t | None => None end in
      let duration_str :=
        match info_length with
        | Some n => Some (format_duration n)
        | None => None
        end in
      (title, artist, duration_str)
  end.

(** The value of an [Optional[str]] that has been tested truthy. *)
Definition str_of (o : option string) : string :=
  match o with Some s => s | None => EmptyString end.

(** The prefill of the search entry in [show_file_prompt]. *)
Definition prefill_text (title artist : option string) (filename : string)
    : string :=
  if PyStr.truthy title && PyStr.truthy artist
  then String.append (str_of title) (String " "%char (str_of artist))
  else if PyStr.truthy title && negb (PyStr.truthy artist) then str_of title
  else if negb (PyStr.truthy title) && PyStr.truthy artist then str_of artist
  else fst (Path.splitext filename).

Definition or_unknown (o : option string) : string :=
  match o with
  | Some s => if PyStr.nonempty s then s else "Unknown"
  | None => "Unknown"
  end.

Definition meta_label_text (title artist duration_str : option string)
    : string :=
  PyStr.join (String "010"%char EmptyString)
    [String.append "Local Title: " (or_unknown title);
     String.append "Local Artist: " (or_unknown artist);
     String.append "Local Duration: " (or_unknown duration_str)].

Definition stop_local_audio : M unit := music_stop.

Definition stop_preview_audio : M unit :=
  music_stop ;;
  a <- self ;;
  w <- outside ;;
  match preview_temp_path a with
  | Some p =>
      if PyStr.nonempty p && path_exists w p
      then try_except (os_remove p) (fun e => ret tt)
      else ret tt
  | None => ret tt
  end ;;
  assign (set_preview_temp_path None).

(** One row of results in [search_spotify]. *)
Definition track_row (track : TrackObject) : Widget :=
  let artists := PyStr.join ", " (tr_artists track) in
  let duration_s := tr_duration_ms track / 1000 in
  let text_line :=
    String.append (tr_name track)
      (String.append " - "
         (String.append artists
            (String.append (String "010"%char "Album: ")
               (String.append (tr_album track)
                  (String.append " | Duration: "
                     (format_duration duration_s)))))) in
  TrackRow (tr_uri track) text_line (tr_external_url track)
    (if PyStr.truthy (tr_preview_url track) then tr_preview_url track
     else None).

Definition search_spotify : M unit :=
  emit DestroyResults ;;
  assign (set_results_frame []) ;;
  stop_preview_audio ;;
  a <- self ;;
  let query := PyStr.strip (query_var a) in
  if negb (PyStr.nonempty query) then ret tt
  else
    tracks <- sp_search query 5 ;;
    match tracks with
    | [] => assign (set_results_frame [NoResultsLabel])
    | top :: _ =>
        assign (set_track_var (Some (tr_uri top))) ;;
        assign (set_results_frame (map track_row tracks ++ [AddButton]))
    end.

Definition show_file_prompt : M unit :=
  a <- self ;;
  if (length (audio_files a) <=? current_index a)%nat then
    messagebox ShowInfo (MsgDone (skipped_songs a)) ;;
    draw_initial_ui
  else
    assign (set_results_frame []) ;;
    match audio_files a !! current_index a with
    | None => raise IndexError
    | Some path =>
        assign (set_current_filepath (Some path)) ;;
        let filename := Path.basename path in
        w <- outside ;;
        let '(title, artist, duration_str) := get_file_metadata w path in
        assign (set_local_metadata title artist duration_str) ;;
        let prefill := prefill_text title artist filename in
        assign (set_main_frame
                  (FilePromptUI filename
                     (meta_label_text title artist duration_str))) ;;
        assign (set_query_var prefill) ;;
        assign (set_results_frame []) ;;
        assign (set_url_var EmptyString) ;;
        search_spotify
    end.

Definition go_to_next_file : M unit :=
  stop_local_audio ;;
  stop_preview_audio ;;
  assign (fun a => set_current_index (current_index a + 1)%nat a) ;;
  show_file_prompt.

(** [select_directory]; the answers of the two dialogs are [directory]
    (empty when cancelled) and [name]. *)
Definition select_directory (directory : string) (name : option string)
    : M unit :=
  if PyStr.nonempty directory then
    assign (set_selected_directory (Some directory)) ;;
    assign (set_playlist_name name) ;;
    w <- outside ;;
    assign (set_audio_files (candidate_files directory (dir_tree w directory))) ;;
    assign (set_current_index 0%nat) ;;
    show_file_prompt
  else ret tt.

Definition add_track_by_url : M unit :=
  a <- self ;;
  let track_url := PyStr.strip (url_var a) in
  if negb (PyStr.nonempty track_url) then messagebox ShowError MsgNoUrl
  else
    match playlist_id a with
    | None => create_playlist
    | Some _ => ret tt
    end ;;
    try_except
      (track_info <- sp_track track_url ;;
       match track_info with
       | Some info =>
           if String.eqb (tr_type info) "track" then
             a <- self ;;
             sp_playlist_add_items (playlist_id a) [tr_uri info] ;;
             messagebox ShowInfo (MsgAddedByUrl (tr_name info)) ;;
             go_to_next_file
           else messagebox ShowError MsgInvalidTrack
       | None => messagebox ShowError MsgInvalidTrack
       end)
      (fun e => messagebox ShowError (MsgInvalidUrl e)).

(** [add_to_playlist]; [self.track_var] exists once a search has shown
    results, which is also when the button that calls this exists. *)
Definition add_to_playlist : M unit :=
  a <- self ;;
  match playlist_id a with
  | None => create_playlist
  | Some _ => ret tt
  end ;;
  a <- self ;;
  match track_var a with
  | None => raise AttributeError
  | Some selected_track_uri =>
      (if PyStr.nonempty selected_track_uri
       then sp_playlist_add_items (playlist_id a) [selected_track_uri]
       else ret tt) ;;
      go_to_next_file
  end.

Definition skip_file : M unit :=
  a <- self ;;
  match audio_files a !! current_index a with
  | None => raise IndexError
  | Some path =>
      let filename := Path.basename path in
      assign (fun a => set_skipped_songs (skipped_songs a ++ [filename]) a) ;;
      go_to_next_file
  end.

Definition play_local_audio : M unit :=
  stop_local_audio ;;
  a <- self ;;
  w <- outside ;;
  match current_filepath a with
  | Some p =>
      if PyStr.nonempty p && path_exists w p then
        try_except (music_load p ;; music_play)
          (fun e => messagebox ShowError (MsgPlaybackError e))
      else ret tt
  | None => ret tt
  end.

Definition play_spotify_preview (url : option string) : M unit :=
  stop_preview_audio ;;
  match url with
  | Some u =>
      if PyStr.nonempty u then
        try_except
          (requests_get u ;;
           raise_for_status ;;
           tmp <- named_temporary_file ;;
           assign (set_preview_temp_path (Some tmp)) ;;
           music_load tmp ;;
           music_play)
          (fun e => messagebox ShowError (MsgPreviewError e))
      else messagebox ShowInfo MsgPreviewUnavailable
  | None => messagebox ShowInfo MsgPreviewUnavailable
  end.

(** ** The user at the window *)

(** What the user can do: answer the dialogs of "Select Directory", edit
    the two entries, pick a radio button, press a button. *)
Inductive Action : Type :=
  | PressSelectDirectory (directory : string) (name : option string)
  | TypeQuery (text : string)
  | TypeUrl (text : string)
  | PickTrack (value : string)
  | PressSearch
  | PressAddByUrl
  | PressAddToPlaylist
  | PressSkip
  | PressPlayLocal
  | PressStopLocal
  | PressPlayPreview (url : string)
  | PressStopPreview.

Definition on_prompt (a : App) : bool :=
  match main_frame a with FilePromptUI _ _ => true | InitialUI => false end.

Definition has_row (value : string) (wd : Widget) : bool :=
  match wd with TrackRow v _ _ _ => String.eqb v value | _ => false end.

Definition has_preview (url : option string) (wd : Widget) : bool :=
  match wd, url with
  | TrackRow _ _ _ (Some u), Some u' => String.eqb u u'
  | TrackRow _ _ _ (Some _), None => true
  | _, _ => false
  end.

Definition is_add_button (wd : Widget) : bool :=
  match wd with AddButton => true | _ => false end.

(** An action is possible when its widget is on the screen. *)
Definition enabled (a : App) (act : Action) : bool :=
  match act with
  | PressSelectDirectory _ _ => negb (on_prompt a)
  | TypeQuery _ | TypeUrl _ | PressSearch | PressAddByUrl | PressSkip
  | PressPlayLocal | PressStopLocal => on_prompt a
  | PickTrack v => on_prompt a && existsb (has_row v) (results_frame a)
  | PressAddToPlaylist =>
      on_prompt a && existsb is_add_button (results_frame a)
  | PressPlayPreview u =>
      on_prompt a && existsb (has_preview (Some u)) (results_frame a)
  | PressStopPreview =>
      on_prompt a && existsb (has_preview None) (results_frame a)
  end.

Definition handler (act : Action) : M unit :=
  match act with
  | PressSelectDirectory directory name => select_directory directory name
  | TypeQuery text => assign (set_query_var text)
  | TypeUrl text => assign (set_url_var text)
  | PickTrack v => assign (set_track_var (Some v))
  | PressSearch => search_spotify
  | PressAddByUrl => add_track_by_url
  | PressAddToPlaylist => add_to_playlist
  | PressSkip => skip_file
  | PressPlayLocal => play_local_audio
  | PressStopLocal => stop_local_audio
  | PressPlayPreview u => play_spotify_preview (Some u)
  | PressStopPreview => stop_preview_audio
  end.

(** Tk runs a callback, reports an exception that escapes it on the
    standard error stream, and goes back to the event loop. *)
Definition callback (m : M unit) : M unit :=
  try_except m (fun e => emit (Traceback e)).

Definition step (act : Action) : M unit :=
  a <- self ;;
  if enabled a act then callback (handler act) else ret tt.

Fixpoint run (acts : list Action) : M unit :=
  match acts with
  | [] => ret tt
  | act :: rest => step act ;; run rest
  end.

(** The three ways to resolve the current file, with what the user
    entered: skip, commit the radio selection (after picking [pick], if
    any), add the reference typed in the URL entry. *)
Inductive Op : Type :=
  | OpSkip
  | OpAddSelected (pick : option string)
  | OpAddUrl (url : string).

Definition exec_op (o : Op) : M unit :=
  match o with
  | OpSkip => skip_file
  | OpAddSelected None => add_to_playlist
  | OpAddSelected (Some v) => assign (set_track_var (Some v)) ;; add_to_playlist
  | OpAddUrl url => assign (set_url_var url) ;; add_track_by_url
  end.

(** The fields and the world after a sequence of operations; an
    exception that escapes one of them is reported by Tk and the next
    operation finds what that one left. *)
Fixpoint after_ops (ops : list Op) (a : App) (w : World) : App * World :=
  match ops with
  | [] => (a, w)
  | o :: rest =>
      let r := exec_op o a w in
      after_ops rest (app r) (world r)
  end.

(** *** Reading a trace *)

Definition created (e : Event) : option nat :=
  match e with UserPlaylistCreate _ (Some pid) => Some pid | _ => None end.

Definition added_to (e : Event) : option nat :=
  match e with PlaylistAddItems (Some pid) _ true => Some pid | _ => None end.

(** The playlists created, and the targets of the successful appends. *)
Definition creations (t : list Event) : list nat := omap created t.
Definition add_targets (t : list Event) : list nat := omap added_to t.

Definition is_error_box (e : Event) : bool :=
  match e with MessageBox ShowError _ => true | _ => false end.

Definition is_message_box (e : Event) : bool :=
  match e with MessageBox _ _ => true | _ => false end.

(** A call of the catalog client other than a search. *)
Definition is_catalog_call (e : Event) : bool :=
  match e with
  | CurrentUser _ | UserPlaylistCreate _ _ | TrackLookup _ _
  | PlaylistAddItems _ _ _ => true
  | _ => false
  end.

(** A lookup that raised, or returned nothing or something that is not a
    track. *)
Definition is_failed_lookup (e : Event) : bool :=
  match e with
  | TrackLookup _ None => true
  | TrackLookup _ (Some None) => true
  | TrackLookup _ (Some (Some info)) => negb (String.eqb (tr_type info) "track")
  | _ => false
  end.

(** An operation is completed when its handler returns without having
    shown an error. *)
Definition completed (r : Result unit) : Prop :=
  out r = Ret tt /\ existsb is_error_box (trace r) = false.

Fixpoint all_completed (ops : list Op) (a : App) (w : World) : Prop :=
  match ops with
  | [] => True
  | o :: rest =>
      let r := exec_op o a w in
      completed r /\ all_completed rest (app r) (world r)
  end.

(** The lazy creation that precedes an add raises. *)
Definition creation_raises (a : App) (w : World) : Prop :=
  playlist_id a = None /\ exists e, out (create_playlist a w) = Raise e.

(** The stored playlist id against the trace of the session so far:
    without an id nothing has been created or appended; with an id, that
    playlist is the only one created and the target of every append. *)
Definition playlist_inv (a : App) (t : list Event) : Prop :=
  match playlist_id a with
  | None => creations t = [] /\ add_targets t = []
  | Some pid => creations t = [pid] /\ Forall (eq pid) (add_targets t)
  end.

(** What one call may do to the stored id, with its trace [tr]. *)
Definition playlist_step (a a' : App) (tr : list Event) : Prop :=
  match playlist_id a with
  | Some pid =>
      playlist_id a' = Some pid /\ creations tr = []
      /\ Forall (eq pid) (add_targets tr)
  | None =>
      (playlist_id a' = None /\ creations tr = [] /\ add_targets tr = [])
      \/ (exists pid,
            playlist_id a' = Some pid /\ creations tr = [pid]
            /\ Forall (eq pid) (add_targets tr))
  end.

(** The outcome of a call of [user_playlist_create]: the id of the new
    playlist, or [None] when the call raised. *)
Definition create_call (e : Event) : option (option nat) :=
  match e with UserPlaylistCreate _ res => Some res | _ => None end.

(** The calls of [user_playlist_create] of a trace, in order. *)
Definition create_calls (t : list Event) : list (option nat) :=
  omap create_call t.

(** What one call may do to the stored id, with the calls of
    [user_playlist_create] in its trace [tr]: none once an id is stored;
    without one, at most one call, and the id is stored exactly when
    that call returns. *)
Definition calls_step (a a' : App) (tr : list Event) : Prop :=
  match playlist_id a with
  | Some pid => playlist_id a' = Some pid /\ create_calls tr = []
  | None =>
      (playlist_id a' = None
       /\ (create_calls tr = [] \/ create_calls tr = [None]))
      \/ (exists pid, playlist_id a' = Some pid
                      /\ create_calls tr = [Some pid])
  end.

(** The calls of a session so far: failed calls, then the call that
    made the stored id, if there is one. *)
Definition calls_inv (a : App) (t : list Event) : Prop :=
  exists k,
    create_calls t
    = repeat None k
      ++ match playlist_id a with Some pid => [Some pid] | None => [] end.

Definition is_add_action (act : Action) : bool :=
  match act with
  | PressAddByUrl | PressAddToPlaylist => true
  | _ => false
  end.

Definition is_search (e : Event) : bool :=
  match e with Search _ _ _ => true | _ => false end.

(** A widget the user can select or commit with. *)
Definition selectable (wd : Widget) : bool :=
  match wd with
  | TrackRow _ _ _ _ | AddButton => true
  | NoResultsLabel => false
  end.

(** *** Summaries of a call *)

(** The fields of the session that browsing does not touch. *)
Definition same_session (a a' : App) : Prop :=
  sp a' = sp a /\ playlist_id a' = playlist_id a
  /\ playlist_name a' = playlist_name a /\ audio_files a' = audio_files a
  /\ skipped_songs a' = skipped_songs a
  /\ current_index a' = current_index a.

(** A trace without a call of the catalog client other than searches. *)
Definition quiet (t : list Event) : bool :=
  forallb (fun e => negb (is_catalog_call e)) t.

(** A computation that leaves the session and the playlists of the
    catalog as they are, whatever its outcome. *)
Definition passive {A} (m : M A) : Prop :=
  forall a w,
    same_session a (app (m a w))
    /\ playlists (world (m a w)) = playlists w
    /\ quiet (trace (m a w)) = true.

(** The session after the cursor has moved to the next file. *)
Definition advanced (a a' : App) : Prop :=
  sp a' = sp a /\ playlist_id a' = playlist_id a
  /\ playlist_name a' = playlist_name a /\ audio_files a' = audio_files a
  /\ skipped_songs a' = skipped_songs a
  /\ current_index a' = S (current_index a).

(** The order of the keys of a sort. *)
Definition key_le (key : string -> string) (x y : string) : Prop :=
  String.leb (key x) (key y) = true.

(** ** A concrete scenario *)

(** The directory of the end-to-end scenario, with a cover image and a
    sub-directory added: [b.mp3] is tagged, [a.mp3] is not. *)
Definition demo_tree : tree :=
  Node ["b.mp3"; "cover.JPG"; "a.mp3"]
       [("live", Node ["C.flac"; "poster.png"] [])].

Definition demo_track (uri name : string) : TrackObject :=
  mkTrack "track" uri name ["Artist X"] "Album" 185000
    (Some "https://p.example/clip") "https://open.example/track".

Definition demo_album : TrackObject :=
  mkTrack "album" "spotify:album:1" "Album" ["Artist X"] "Album" 0 None
    "https://open.example/album".

(** A catalog that knows two tracks for the query [a], resolves the
    reference [spotify:track:9] to a track and [spotify:album:1] to an
    album, and rejects every other reference; [script] is the script of
    failures. *)
Definition demo_world (script : list bool) : World :=
  mkWorld "me" []
    (fun q =>
       if String.eqb q "a"
       then [demo_track "spotify:track:1" "A1";
             demo_track "spotify:track:2" "A2"]
       else [])
    (fun ref =>
       if String.eqb ref "spotify:track:9"
       then Some (Some (demo_track "spotify:track:9" "Nine"))
       else if String.eqb ref "spotify:album:1" then Some (Some demo_album)
       else None)
    (fun _ => demo_tree)
    (fun p =>
       if String.eqb p "/music/b.mp3"
       then MutagenMeta (Some [("TIT2", "Song B"); ("TPE1", "Artist X")])
              (Some 125%Z)
       else MutagenFalsy)
    ["/music/a.mp3"; "/music/b.mp3"; "/music/live/C.flac"] 0%Z None false
    script.

(** The session once the directory of the scenario has been selected,
    with the playlist name [mix]. *)
Definition demo_start (script : list bool) : Result unit :=
  select_directory "/music" (Some "mix") (init (Some SpotifyClient))
    (demo_world script).

(** ** [reveal_in_explorer]: the function behind the button that shows the
    current file in the file manager.  What it does depends on the
    platform, on whether the file exists and on whether the process
    can be started. *)
Module Explorer.

(** [s.rstrip(c)] for a one-character set. *)
Fixpoint rstrip_char (c : ascii) (s : string) : string :=
  match s with
  | EmptyString => EmptyString
  | String a s' =>
      match rstrip_char c s' with
      | EmptyString =>
          if Ascii.eqb a c then EmptyString else String a EmptyString
      | r => String a r
      end
  end.

(** [c * n] *)
Fixpoint times (c : ascii) (n : nat) : string :=
  match n with
  | O => EmptyString
  | S k => String c (times c k)
  end.

(** [posixpath.dirname] *)
Definition dirname (p : string) : string :=
  let i := PyStr.rfind Path.sep p + 1 in
  let head := PyStr.slice_to p i in
  if PyStr.nonempty head
     && negb (String.eqb head (times Path.sep (String.length head)))
  then rstrip_char Path.sep head
  else head.

(** What [subprocess.Popen] is given: a command line, or a list of
    arguments. *)
Inductive Command : Type :=
  | CommandLine (line : string)
  | ArgList (args : list string).

(** The two error boxes: [File does not exist] with the path, and
    [Unable to open in file explorer] with the text of the exception. *)
Inductive Notice : Type :=
  | FileDoesNotExist (file_path : string)
  | UnableToOpen.

(** What the user sees: a process started, or not, and error boxes. *)
Inductive Shown : Type :=
  | Popen (cmd : Command) (started : bool)
  | ShowError (n : Notice).

(** The machine: [platform.system()], [os.path.exists], the
    [os.path.abspath] of the platform, and whether [Popen] raises. *)
Record Host : Type := mkHost {
  system_name : string;
  os_path_exists : string -> bool;
  abspath : string -> string;
  popen_raises : bool
}.

(** The double quote around the path of the Windows command line. *)
Definition quote : string := String (ascii_of_nat 34) EmptyString.

Definition reveal_in_explorer (h : Host) (file_path : string)
    : list Shown :=
  if negb (os_path_exists h file_path) then [ShowError (FileDoesNotExist file_path)]
  else
    let cmd :=
      if String.eqb (system_name h) "Windows" then
        CommandLine
          (String.append "explorer /select,"
             (String.append quote
                (String.append (abspath h file_path) quote)))
      else if String.eqb (system_name h) "Darwin" then
        ArgList ["open"; "-R"; file_path]
      else ArgList ["xdg-open"; dirname file_path] in
    if popen_raises h then [Popen cmd false; ShowError UnableToOpen]
    else [Popen cmd true].

End Explorer.

(** ** Further readings of states and traces *)

Local Open Scope nat_scope.

(** An [os.remove] that raised. *)
Definition is_failed_remove (e : Event) : bool :=
  match e with OsRemove _ false => true | _ => false end.

(** A temporary file was made. *)
Definition is_temp_file (e : Event) : bool :=
  match e with TempFile _ => true | _ => false end.

(** The download of a preview failed: the request raised, or the
    status was an error. *)
Definition is_failed_download (e : Event) : bool :=
  match e with
  | HttpGet _ false | RaiseForStatus false => true
  | _ => false
  end.

(** The exception of a report of Tk. *)
Definition reported (e : Event) : option exn :=
  match e with Traceback x => Some x | _ => None end.

(** The exceptions that escaped a callback, as Tk reported them. *)
Definition escaped (t : list Event) : list exn := omap reported t.

(** A computation that emits no report itself. *)
Definition hushed {A} (m : M A) : Prop :=
  forall a w, escaped (trace (m a w)) = [].

(** What the window guarantees about the fields. *)
Definition ui_inv (a : App) : Prop :=
  current_index a <= length (audio_files a)
  /\ (on_prompt a = true ->
      exists path, audio_files a !! current_index a = Some path
                   /\ current_filepath a = Some path)
  /\ (on_prompt a = false -> results_frame a = [])
  /\ (existsb is_add_button (results_frame a) = true ->
      (exists u, track_var a = Some u) /\ sp a = Some SpotifyClient).

(** What is known of an exception that escapes a handler: it is not
    the [IndexError] of a list index out of range, and without a client
    it is the [AttributeError] of a method of [None]. *)
Definition may_escape (client : option Spotify) (e : exn) : Prop :=
  e <> IndexError /\ (client = None -> e = AttributeError).

(** The playlist and the items of a successful append. *)
Definition appended (e : Event) : option (nat * list string) :=
  match e with
  | PlaylistAddItems (Some pid) items true => Some (pid, items)
  | _ => None
  end.

(** The successful appends of a trace, in order. *)
Definition appends (t : list Event) : list (nat * list string) :=
  omap appended t.

(** Whether every [os.remove] of a trace is of a temporary file made
    earlier in the trace, or of one of [own]. *)
Fixpoint removes_own (own : list string) (t : list Event) : bool :=
  match t with
  | [] => true
  | TempFile p :: t' => removes_own (p :: own) t'
  | OsRemove p _ :: t' => str_in p own && removes_own own t'
  | _ :: t' => removes_own own t'
  end.

(** The temporary files made in a trace, added to [own]. *)
Fixpoint owned_after (own : list string) (t : list Event) : list string :=
  match t with
  | [] => own
  | TempFile p :: t' => owned_after (p :: own) t'
  | _ :: t' => owned_after own t'
  end.

(** A call of [os.remove]. *)
Definition is_removal (e : Event) : bool :=
  match e with OsRemove _ _ => true | _ => false end.

(** A computation that removes only files it owns, and tracks only
    such a file as the preview. *)
Definition tidy {A} (m : M A) : Prop :=
  forall own a w,
    (forall p, preview_temp_path a = Some p -> p ∈ own) ->
    removes_own own (trace (m a w)) = true
    /\ (forall p, preview_temp_path (app (m a w)) = Some p ->
        p ∈ owned_after own (trace (m a w))).

(** The playlists [l'] hold what [l] holds: every playlist of [l] is
    still there under its id, with the same owner, name and visibility,
    and its items are the first items of the playlist now. *)
Definition grows (l l' : list Playlist) : Prop :=
  forall q p, l !! q = Some p ->
    exists p', l' !! q = Some p'
               /\ pl_user p' = pl_user p /\ pl_name p' = pl_name p
               /\ pl_public p' = pl_public p
               /\ pl_items p `prefix_of` pl_items p'.

(** A computation that only adds to the catalog and to the skipped
    list. *)
Definition keeping {A} (m : M A) : Prop :=
  forall a w,
    grows (playlists w) (playlists (world (m a w)))
    /\ skipped_songs a `prefix_of` skipped_songs (app (m a w)).

Local Open Scope Z_scope.

(** * Properties *)

(** ** Strings and paths *)

Example basename_ex : Path.basename "/music/a/b.Mp3" = "b.Mp3".
Proof. reflexivity. Qed.

Example splitext_ex : Path.splitext "b.tar.GZ" = ("b.tar", ".GZ")
  /\ Path.splitext "..jpg" = ("..jpg", "")
  /\ Path.splitext "/m.d/x" = ("/m.d/x", "").
Proof. repeat split. Qed.

Example join_ex : Path.join "/music" "a.mp3" = "/music/a.mp3"
  /\ Path.join "/" "a.mp3" = "/a.mp3" /\ Path.join "" "a.mp3" = "a.mp3".
Proof. repeat split. Qed.

Example strip_ex : PyStr.strip "  a b  " = "a b" /\ PyStr.strip "   " = "".
Proof. split; reflexivity. Qed.

Example of_int_ex : PyStr.of_int 125 = "125" /\ PyStr.of_int_02d 5 = "05"
  /\ PyStr.of_int 0 = "0".
Proof. repeat split. Qed.

Section StringFacts.

Local Notation "a ++ b" := (String.append a b) : string_scope.
Local Abbreviation len s := (Z.of_nat (String.length s)).

Lemma append_nil_l (b : string) : (EmptyString ++ b)%string = b.
Proof. reflexivity. Qed.

Lemma append_cons x (a b : string) :
  (String x a ++ b)%string = String x (a ++ b)%string.
Proof. reflexivity. Qed.

Lemma append_assoc (a b c : string) :
  ((a ++ b) ++ c)%string = (a ++ (b ++ c))%string.
Proof.
  induction a as [|x a IH]; rewrite ?append_nil_l, ?append_cons; congruence.
Qed.

Lemma length_append (a b : string) :
  String.length (a ++ b)%string = (String.length a + String.length b)%nat.
Proof.
  induction a as [|x a IH]; rewrite ?append_nil_l, ?append_cons; simpl;
    congruence.
Qed.

Lemma rfind_range c s : -1 <= PyStr.rfind c s < len s.
Proof.
  induction s as [|a s IH]; simpl PyStr.rfind; simpl String.length; [lia|].
  destruct (0 <=? PyStr.rfind c s) eqn:E; [lia|].
  destruct (Ascii.eqb a c); lia.
Qed.

Lemma rfind_app c (a b : string) :
  PyStr.rfind c (a ++ b)%string =
  if 0 <=? PyStr.rfind c b then len a + PyStr.rfind c b else PyStr.rfind c a.
Proof.
  induction a as [|x a IH]; rewrite ?append_nil_l, ?append_cons.
  - destruct (0 <=? PyStr.rfind c b) eqn:E; [simpl; lia|].
    pose proof (rfind_range c b). apply Z.leb_gt in E. simpl. lia.
  - simpl PyStr.rfind. rewrite IH.
    destruct (0 <=? PyStr.rfind c b) eqn:E.
    + apply Z.leb_le in E.
      assert (H : (0 <=? len a + PyStr.rfind c b) = true)
        by (apply Z.leb_le; lia).
      rewrite H. simpl String.length. lia.
    + reflexivity.
Qed.

Lemma rfind_free c s : PyStr.free_of c s = true -> PyStr.rfind c s = -1.
Proof.
  induction s as [|a s IH]; simpl; [reflexivity|].
  intros [Ha Hs]%andb_prop. rewrite (IH Hs). simpl.
  apply negb_true_iff in Ha. now rewrite Ha.
Qed.

Lemma rfind_sep_suffix c (a : string) :
  PyStr.rfind c (a ++ String c EmptyString)%string = len a.
Proof.
  rewrite rfind_app. simpl. rewrite Ascii.eqb_refl. simpl. lia.
Qed.

Lemma endswith_split c s :
  PyStr.endswith c s = true ->
  exists s', s = (s' ++ String c EmptyString)%string.
Proof.
  induction s as [|a s IH]; simpl; [discriminate|].
  destruct s as [|b s].
  - intros ->%Ascii.eqb_eq. now exists EmptyString.
  - intros H. destruct (IH H) as [s' Hs']. exists (String a s').
    rewrite append_cons. now rewrite <- Hs'.
Qed.

Lemma drop_app_plus (a b : string) n :
  PyStr.drop (String.length a + n) (a ++ b)%string = PyStr.drop n b.
Proof.
  induction a as [|x a IH]; rewrite ?append_nil_l, ?append_cons; simpl; auto.
Qed.

Lemma drop_app_length (a b : string) :
  PyStr.drop (String.length a) (a ++ b)%string = b.
Proof.
  rewrite <- (Nat.add_0_r (String.length a)), drop_app_plus. reflexivity.
Qed.

(** [os.path.join] puts in front of a plain name a prefix that is empty
    or ends with the separator. *)
Lemma join_prefix root f :
  PyStr.free_of Path.sep f = true ->
  exists pre, Path.join root f = (pre ++ f)%string
    /\ PyStr.rfind Path.sep pre = len pre - 1.
Proof.
  intros Hf. unfold Path.join.
  assert (Hs : PyStr.startswith Path.sep f = false).
  { destruct f as [|x f]; simpl in *; [reflexivity|].
    apply andb_prop in Hf as [Hx _]. now apply negb_true_iff in Hx. }
  rewrite Hs. destruct root as [|x root].
  - exists EmptyString. simpl. split; [reflexivity|lia].
  - cbn [PyStr.nonempty negb orb].
    destruct (PyStr.endswith Path.sep (String x root)) eqn:E.
    + exists (String x root). split; [reflexivity|].
      destruct (endswith_split _ _ E) as [s' ->].
      rewrite rfind_sep_suffix, length_append. simpl. lia.
    + exists (String x root ++ String Path.sep EmptyString)%string. split.
      * now rewrite append_assoc.
      * rewrite rfind_sep_suffix, length_append. simpl String.length. lia.
Qed.

Lemma basename_join root f :
  PyStr.free_of Path.sep f = true -> Path.basename (Path.join root f) = f.
Proof.
  intros Hf. destruct (join_prefix root f Hf) as (pre & -> & Hpre).
  unfold Path.basename, PyStr.slice_from.
  rewrite rfind_app, (rfind_free _ _ Hf). change (0 <=? -1) with false. cbv iota.
  rewrite Hpre.
  replace (Z.to_nat (len pre - 1 + 1)) with (String.length pre) by lia.
  apply drop_app_length.
Qed.

Lemma splitext_loop_shift pre f d n i :
  0 <= i -> 0 <= d ->
  snd (Path.splitext_loop (pre ++ f)%string (len pre + d) n (len pre + i))
  = snd (Path.splitext_loop f d n i).
Proof.
  revert i. induction n as [|n IH]; intros i Hi Hd; simpl; [reflexivity|].
  unfold PyStr.slice, PyStr.slice_from, PyStr.slice_to.
  replace (Z.to_nat (len pre + i)) with (String.length pre + Z.to_nat i)%nat
    by lia.
  rewrite drop_app_plus.
  replace (len pre + i + 1 - (len pre + i)) with (i + 1 - i) by lia.
  destruct (negb _).
  - simpl.
    replace (Z.to_nat (len pre + d)) with (String.length pre + Z.to_nat d)%nat
      by lia.
    apply drop_app_plus.
  - replace (len pre + i + 1) with (len pre + (i + 1)) by lia.
    apply IH; lia.
Qed.

(** The extension of a joined path is the extension of the file name. *)
Lemma splitext_join root f :
  PyStr.free_of Path.sep f = true ->
  snd (Path.splitext (Path.join root f)) = snd (Path.splitext f).
Proof.
  intros Hf. destruct (join_prefix root f Hf) as (pre & -> & Hpre).
  unfold Path.splitext.
  rewrite !rfind_app, (rfind_free _ _ Hf). change (0 <=? -1) with false. cbv iota.
  rewrite Hpre.
  pose proof (rfind_range Path.extsep f) as Hr.
  pose proof (rfind_range Path.extsep pre) as Hp.
  destruct (0 <=? PyStr.rfind Path.extsep f) eqn:E.
  - apply Z.leb_le in E.
    assert (H1 : (len pre - 1 <? len pre + PyStr.rfind Path.extsep f) = true)
      by (apply Z.ltb_lt; lia).
    assert (H2 : (-1 <? PyStr.rfind Path.extsep f) = true)
      by (apply Z.ltb_lt; lia).
    rewrite H1, H2.
    replace (len pre + PyStr.rfind Path.extsep f - (len pre - 1 + 1))
      with (PyStr.rfind Path.extsep f - (-1 + 1)) by lia.
    replace (len pre - 1 + 1) with (len pre + 0) by lia.
    change (-1 + 1) with 0.
    apply splitext_loop_shift; lia.
  - apply Z.leb_gt in E.
    assert (H1 : (len pre - 1 <? PyStr.rfind Path.extsep pre) = false)
      by (apply Z.ltb_ge; lia).
    assert (H2 : (-1 <? PyStr.rfind Path.extsep f) = false)
      by (apply Z.ltb_ge; lia).
    now rewrite H1, H2.
Qed.

End StringFacts.

(** ** Sorting by key *)

Section Sorting.

Variable key : string -> string.

Local Abbreviation key_le := (key_le key).

Lemma lt_false_leb (a b : string) :
  PyStr.lt a b = false -> String.leb b a = true.
Proof.
  unfold PyStr.lt, String.ltb, String.leb.
  rewrite (String.compare_antisym a b).
  destruct (String.compare b a); simpl; congruence.
Qed.

Lemma lt_true_leb (a b : string) :
  PyStr.lt a b = true -> String.leb a b = true.
Proof.
  unfold PyStr.lt, String.ltb, String.leb.
  destruct (String.compare a b); congruence.
Qed.

Lemma key_le_trans x y z : key_le x y -> key_le y z -> key_le x z.
Proof.
  unfold key_le. intros H1%Is_true_true H2%Is_true_true. apply Is_true_true.
  exact (transitivity (R := String.le) H1 H2).
Qed.

Lemma insert_by_key_perm x l : insert_by_key key x l ≡ₚ x :: l.
Proof.
  induction l as [|y l IH]; simpl; [reflexivity|].
  destruct (PyStr.lt (key y) (key x)); [|reflexivity].
  rewrite IH. apply perm_swap.
Qed.

Lemma list_sort_perm l : list_sort key l ≡ₚ l.
Proof.
  induction l as [|x l IH]; simpl; [reflexivity|].
  unfold list_sort in IH. rewrite insert_by_key_perm. now rewrite IH.
Qed.

Lemma insert_by_key_sorted x l :
  StronglySorted key_le l -> StronglySorted key_le (insert_by_key key x l).
Proof.
  induction 1 as [|y l Hl IH Hy]; simpl.
  - repeat constructor.
  - destruct (PyStr.lt (key y) (key x)) eqn:E.
    + constructor; [exact IH|].
      rewrite insert_by_key_perm. constructor; [|exact Hy].
      now apply lt_true_leb.
    + assert (Hxy : key_le x y) by now apply lt_false_leb.
      constructor; [now constructor|].
      constructor; [exact Hxy|].
      eapply Forall_impl; [exact Hy|]. intros z Hz.
      now apply key_le_trans with y.
Qed.

Lemma list_sort_sorted l : StronglySorted key_le (list_sort key l).
Proof.
  induction l as [|x l IH]; simpl; [constructor|].
  now apply insert_by_key_sorted.
Qed.

(** The sort is stable: elements with the same key keep their order. *)
Lemma insert_by_key_stable k x l :
  StronglySorted key_le l ->
  filter (fun y => key y = k) (insert_by_key key x l)
  = filter (fun y => key y = k) (x :: l).
Proof.
  induction 1 as [|y l Hl IH Hy]; simpl; [reflexivity|].
  destruct (PyStr.lt (key y) (key x)) eqn:E; [|reflexivity].
  rewrite filter_cons, IH, !filter_cons.
  destruct (decide (key y = k)) as [Hyk|]; [|reflexivity].
  destruct (decide (key x = k)) as [Hxk|]; [|reflexivity].
  exfalso. rewrite Hyk, Hxk in E. unfold PyStr.lt, String.ltb in E.
  assert (H : String.compare k k = Eq).
  { clear. induction k as [|c k IH]; simpl; [reflexivity|].
    unfold Ascii.compare. now rewrite N.compare_refl. }
  now rewrite H in E.
Qed.

Lemma list_sort_stable k l :
  filter (fun y => key y = k) (list_sort key l)
  = filter (fun y => key y = k) l.
Proof.
  induction l as [|x l IH]; simpl; [reflexivity|].
  rewrite insert_by_key_stable by apply list_sort_sorted.
  rewrite !filter_cons. now rewrite IH.
Qed.

End Sorting.

(** ** Candidate files *)

Lemma not_blacklisted_join root f :
  PyStr.free_of Path.sep f = true ->
  not_blacklisted (Path.join root f) = not_blacklisted f.
Proof.
  intros Hf. unfold not_blacklisted. now rewrite splitext_join.
Qed.

Lemma filter_map_join root (files : list string) :
  forallb (PyStr.free_of Path.sep) files = true ->
  map (Path.join root) (filter (fun f => not_blacklisted f = true) files)
  = filter (fun p => not_blacklisted p = true) (map (Path.join root) files).
Proof.
  induction files as [|f files IH]; simpl; [reflexivity|].
  intros [Hf Hfs]%andb_prop.
  rewrite !filter_cons, (not_blacklisted_join root f Hf).
  destruct (decide (not_blacklisted f = true)); simpl; now rewrite IH.
Qed.

(** The walk of [get_audio_files] keeps the paths without a deny-listed
    extension, in the order of the walk. *)
Lemma get_audio_files_filter directory t :
  plain_names directory t = true ->
  get_audio_files directory t
  = filter (fun p => not_blacklisted p = true) (walked_files directory t).
Proof.
  unfold plain_names, get_audio_files, walked_files.
  induction (os_walk directory t) as [|[[root dirs] files] l IH]; simpl;
    [reflexivity|].
  intros [Hf Hl]%andb_prop.
  rewrite filter_app, (IH Hl), filter_map_join by exact Hf. reflexivity.
Qed.

Lemma candidate_files_spec directory t :
  plain_names directory t = true ->
  candidate_files directory t
    ≡ₚ filter (fun p => not_blacklisted p = true) (walked_files directory t)
  /\ StronglySorted basename_le (candidate_files directory t).
Proof.
  intros H. unfold candidate_files. split.
  - rewrite list_sort_perm. now rewrite get_audio_files_filter.
  - apply (list_sort_sorted sort_key).
Qed.

(** ** Calls that leave the session alone *)

Local Open Scope nat_scope.

Section Passive.

Lemma same_session_refl a : same_session a a.
Proof. repeat split. Qed.

Lemma same_session_trans a b c :
  same_session a b -> same_session b c -> same_session a c.
Proof. unfold same_session. intuition congruence. Qed.

Lemma quiet_app t1 t2 : quiet (t1 ++ t2) = quiet t1 && quiet t2.
Proof. apply forallb_app. Qed.

Lemma quiet_cons e t :
  quiet (e :: t) = negb (is_catalog_call e) && quiet t.
Proof. reflexivity. Qed.

Context {A B : Type}.

Lemma passive_ret (x : A) : passive (ret x).
Proof. intros a w. simpl. auto using same_session_refl. Qed.

Lemma passive_raise e : passive (@raise A e).
Proof. intros a w. simpl. auto using same_session_refl. Qed.

Lemma passive_bind (m : M A) (f : A -> M B) :
  passive m -> (forall x, passive (f x)) -> passive (bind m f).
Proof.
  intros Hm Hf a w. unfold bind. destruct (Hm a w) as (S1 & P1 & Q1).
  destruct (m a w) as [[x|e] a1 w1 t1]; simpl in *; [|auto].
  destruct (Hf x a1 w1) as (S2 & P2 & Q2).
  destruct (f x a1 w1) as [o a2 w2 t2]; simpl in *.
  rewrite quiet_app, Q1, Q2, P2, P1.
  eauto using same_session_trans.
Qed.

Lemma passive_try (m : M A) (h : exn -> M A) :
  passive m -> (forall e, passive (h e)) -> passive (try_except m h).
Proof.
  intros Hm Hh a w. unfold try_except. destruct (Hm a w) as (S1 & P1 & Q1).
  destruct (m a w) as [[x|e] a1 w1 t1]; simpl in *; [auto|].
  destruct (Hh e a1 w1) as (S2 & P2 & Q2).
  destruct (h e a1 w1) as [o a2 w2 t2]; simpl in *.
  rewrite quiet_app, Q1, Q2, P2, P1.
  eauto using same_session_trans.
Qed.

End Passive.

Lemma passive_self : passive self.
Proof. intros a w. simpl. auto using same_session_refl. Qed.

Lemma passive_outside : passive outside.
Proof. intros a w. simpl. auto using same_session_refl. Qed.

Lemma passive_fault : passive fault.
Proof.
  intros a w. unfold fault.
  destruct (faults w); simpl; auto using same_session_refl.
Qed.

Lemma passive_assign f :
  (forall a, same_session a (f a)) -> passive (assign f).
Proof. intros H a w. simpl. auto. Qed.

Lemma passive_effect g :
  (forall w, playlists (g w) = playlists w) -> passive (effect g).
Proof. intros H a w. simpl. auto using same_session_refl. Qed.

Lemma passive_emit e : is_catalog_call e = false -> passive (emit e).
Proof.
  intros H a w. simpl. unfold quiet. simpl. rewrite H.
  auto using same_session_refl.
Qed.

Create HintDb passive.

#[local] Hint Resolve passive_self passive_outside passive_fault
  passive_ret passive_raise : passive.

(** Decomposes a goal [passive m] along the structure of [m]. *)
Ltac passive_step :=
  match goal with
  | |- passive (bind _ _) => apply passive_bind; [|intros ?]
  | |- passive (try_except _ _) => apply passive_try; [|intros ?]
  | |- passive (assign _) =>
      apply passive_assign; intros ?; repeat split; reflexivity
  | |- passive (effect _) => apply passive_effect; intros ?; reflexivity
  | |- passive (emit _) => apply passive_emit; reflexivity
  | |- passive (messagebox _ _) => apply passive_emit; reflexivity
  | |- passive (if ?c then _ else _) => destruct c
  | |- passive (match ?x with _ => _ end) => destruct x
  | |- passive _ => solve [auto with passive]
  end.

Ltac passive_auto := repeat passive_step.

Lemma passive_music_stop : passive music_stop.
Proof. unfold music_stop. passive_auto. Qed.

Lemma passive_music_load p : passive (music_load p).
Proof. unfold music_load. passive_auto. Qed.

Lemma passive_music_play : passive music_play.
Proof. unfold music_play. passive_auto. Qed.

Lemma passive_os_remove p : passive (os_remove p).
Proof. unfold os_remove. passive_auto. Qed.

Lemma passive_requests_get u : passive (requests_get u).
Proof. unfold requests_get. passive_auto. Qed.

Lemma passive_raise_for_status : passive raise_for_status.
Proof. unfold raise_for_status. passive_auto. Qed.

Lemma passive_named_temporary_file : passive named_temporary_file.
Proof. unfold named_temporary_file. passive_auto. Qed.

Lemma passive_sp_attr : passive sp_attr.
Proof. unfold sp_attr. passive_auto. Qed.

#[local] Hint Resolve passive_music_stop passive_music_load
  passive_music_play passive_os_remove passive_requests_get
  passive_raise_for_status passive_named_temporary_file passive_sp_attr
  : passive.

Lemma passive_sp_search q n : passive (sp_search q n).
Proof. unfold sp_search. passive_auto. Qed.

Lemma passive_stop_preview_audio : passive stop_preview_audio.
Proof. unfold stop_preview_audio. passive_auto. Qed.

#[local] Hint Resolve passive_sp_search passive_stop_preview_audio : passive.

Lemma passive_stop_local_audio : passive stop_local_audio.
Proof. unfold stop_local_audio. passive_auto. Qed.

Lemma passive_draw_initial_ui : passive draw_initial_ui.
Proof. unfold draw_initial_ui. passive_auto. Qed.

Lemma passive_search_spotify : passive search_spotify.
Proof. unfold search_spotify. passive_auto. Qed.

#[local] Hint Resolve passive_stop_local_audio passive_draw_initial_ui
  passive_search_spotify : passive.

Lemma passive_show_file_prompt : passive show_file_prompt.
Proof. unfold show_file_prompt. passive_auto. Qed.

Lemma passive_play_local_audio : passive play_local_audio.
Proof. unfold play_local_audio. passive_auto. Qed.

Lemma passive_play_spotify_preview url : passive (play_spotify_preview url).
Proof. unfold play_spotify_preview. passive_auto. Qed.

#[local] Hint Resolve passive_show_file_prompt passive_play_local_audio
  passive_play_spotify_preview : passive.

(** ** Reading traces *)

Lemma creations_app t1 t2 : creations (t1 ++ t2) = creations t1 ++ creations t2.
Proof. apply omap_app. Qed.

Lemma add_targets_app t1 t2 :
  add_targets (t1 ++ t2) = add_targets t1 ++ add_targets t2.
Proof. apply omap_app. Qed.

Lemma creations_cons e t :
  creations (e :: t)
  = match created e with Some p => p :: creations t | None => creations t end.
Proof. reflexivity. Qed.

Lemma add_targets_cons e t :
  add_targets (e :: t)
  = match added_to e with
    | Some p => p :: add_targets t
    | None => add_targets t
    end.
Proof. reflexivity. Qed.

Lemma creations_nil : creations [] = [].
Proof. reflexivity. Qed.

Lemma add_targets_nil : add_targets [] = [].
Proof. reflexivity. Qed.

Lemma quiet_creations t : quiet t = true -> creations t = [].
Proof.
  induction t as [|e t IH]; [reflexivity|].
  rewrite quiet_cons. intros [He Ht]%andb_prop.
  change (e :: t) with ([e] ++ t). rewrite creations_app, (IH Ht). destruct e; cbn in *; congruence.
Qed.

Lemma quiet_add_targets t : quiet t = true -> add_targets t = [].
Proof.
  induction t as [|e t IH]; [reflexivity|].
  rewrite quiet_cons. intros [He Ht]%andb_prop.
  change (e :: t) with ([e] ++ t). rewrite add_targets_app, (IH Ht). destruct e; cbn in *; congruence.
Qed.

(** ** Playlist creation *)

(** Evaluates a computation as far as its tests allow, and splits on
    the innermost test that blocks it. *)
Ltac case_step :=
  match goal with
  | |- context [match ?x with _ => _ end] =>
      lazymatch x with
      | context [match _ with _ => _ end] => fail
      | _ => destruct x eqn:?
      end
  end.

Ltac unfold_prims :=
  cbv beta iota zeta delta [bind try_except ret raise self assign outside
    effect emit fault messagebox sp_attr sp_current_user
    sp_user_playlist_create sp_track sp_playlist_add_items sp_search
    music_stop music_load music_play os_remove requests_get raise_for_status
    named_temporary_file stop_local_audio draw_initial_ui];
  cbn.

Ltac run_cases :=
  unfold_prims; repeat (case_step; unfold_prims); try congruence.

(** [create_playlist] either leaves everything as it is (no name, no
    client, or a call that raised), or creates one empty playlist and
    stores its id. *)
Lemma create_playlist_cases a w :
  let r := create_playlist a w in
  (app r = a /\ playlists (world r) = playlists w
   /\ (trace r = [] \/ trace r = [CurrentUser false]
       \/ exists name,
            trace r = [CurrentUser true; UserPlaylistCreate name None]))
  \/ (exists name,
        out r = Ret tt
        /\ app r = set_playlist_id (Some (length (playlists w))) a
        /\ playlists (world r)
           = playlists w ++ [mkPlaylist (user_id w) name true []]
        /\ trace r
           = [CurrentUser true;
              UserPlaylistCreate name (Some (length (playlists w)))]).
Proof.
  unfold create_playlist. run_cases; eauto 10.
Qed.

(** ** Moving to the next file *)

Arguments quiet : simpl never.
Arguments callback : simpl never.
Arguments enabled : simpl never.
Arguments creations : simpl never.
Arguments add_targets : simpl never.

(** Computes the creations and the append targets of a trace made of
    known events and of quiet parts. *)
Ltac read_trace :=
  repeat progress
    (rewrite ?creations_app, ?add_targets_app, ?creations_cons,
       ?add_targets_cons, ?creations_nil, ?add_targets_nil;
     repeat match goal with
     | H : quiet ?t = true |- context [creations ?t] =>
         rewrite (quiet_creations t H)
     | H : quiet ?t = true |- context [add_targets ?t] =>
         rewrite (quiet_add_targets t H)
     end;
     cbn [created added_to app]).
Arguments create_playlist : simpl never.
Arguments stop_preview_audio : simpl never.
Arguments search_spotify : simpl never.
Arguments show_file_prompt : simpl never.
Arguments go_to_next_file : simpl never.
Arguments skip_file : simpl never.
Arguments add_to_playlist : simpl never.
Arguments add_track_by_url : simpl never.
Arguments select_directory : simpl never.
Arguments play_local_audio : simpl never.
Arguments play_spotify_preview : simpl never.

Lemma stop_preview_audio_returns a w : out (stop_preview_audio a w) = Ret tt.
Proof. unfold stop_preview_audio. run_cases; reflexivity. Qed.

Lemma go_to_next_file_advances a w :
  let r := go_to_next_file a w in
  advanced a (app r) /\ playlists (world r) = playlists w
  /\ quiet (trace r) = true.
Proof.
  unfold go_to_next_file. unfold_prims.
  pose proof (stop_preview_audio_returns a
                (set_music (music_loaded w) false w)) as R.
  destruct (passive_stop_preview_audio a
              (set_music (music_loaded w) false w)) as (S1 & P1 & Q1).
  destruct (stop_preview_audio a _) as [o1 a1 w1 t1]. cbn in *. subst o1.
  destruct (passive_show_file_prompt
              (set_current_index (current_index a1 + 1) a1) w1)
    as (S2 & P2 & Q2).
  destruct (show_file_prompt _ w1) as [o2 a2 w2 t2]. cbn in *.
  rewrite quiet_cons, quiet_app, Q1, Q2, P2, P1.
  unfold same_session, advanced in *. cbn in *.
  replace (S (current_index a)) with (current_index a + 1)%nat by lia.
  intuition congruence.
Qed.

(** Brings in what is known of the calls the evaluation stopped at. *)
Ltac summaries :=
  repeat match goal with
  | H : go_to_next_file ?a ?w = _ |- _ =>
      let F := fresh "F" in
      pose proof (go_to_next_file_advances a w) as F;
      rewrite H in F; cbn in F; unfold advanced in F; cbn in F;
      destruct F as ((? & ? & ? & ? & ? & ?) & ? & ?);
      clear H
  | H : create_playlist ?a ?w = _ |- _ =>
      let F := fresh "F" in
      pose proof (create_playlist_cases a w) as F;
      rewrite H in F; cbn in F;
      destruct F as [(? & ? & [?|[?|(? & ?)]]) | (? & ? & ? & ? & ?)];
      clear H
  end; subst; cbn in *.

(** ** The cursor *)

Lemma existsb_error_app t1 t2 :
  existsb is_error_box (t1 ++ t2)
  = existsb is_error_box t1 || existsb is_error_box t2.
Proof. apply existsb_app. Qed.

Ltac finish :=
  cbn in *; try discriminate;
  intuition (try discriminate; try congruence; try lia).

Lemma skip_file_index a w :
  current_index a <= current_index (app (skip_file a w))
  /\ (out (skip_file a w) = Ret tt ->
      current_index (app (skip_file a w)) = S (current_index a)).
Proof. unfold skip_file. run_cases; summaries; finish. Qed.

Lemma add_to_playlist_index a w :
  current_index a <= current_index (app (add_to_playlist a w))
  /\ (out (add_to_playlist a w) = Ret tt ->
      current_index (app (add_to_playlist a w)) = S (current_index a)).
Proof.
  unfold add_to_playlist. run_cases; summaries; finish.
Qed.

Lemma add_track_by_url_index a w :
  let r := add_track_by_url a w in
  current_index a <= current_index (app r)
  /\ (completed r -> current_index (app r) = S (current_index a)).
Proof.
  unfold add_track_by_url, completed.
  run_cases; summaries; rewrite ?existsb_error_app; finish.
Qed.

Lemma exec_op_index o a w :
  let r := exec_op o a w in
  current_index a <= current_index (app r)
  /\ (completed r -> current_index (app r) = S (current_index a)).
Proof.
  destruct o as [|[v|]|url]; cbn [exec_op]; unfold completed.
  - destruct (skip_file_index a w). intuition.
  - unfold_prims.
    destruct (add_to_playlist_index (set_track_var (Some v) a) w) as [H1 H2].
    destruct (add_to_playlist _ w) as [o a' w' t']. cbn in *. intuition.
  - destruct (add_to_playlist_index a w). intuition.
  - unfold_prims.
    destruct (add_track_by_url_index (set_url_var url a) w) as [H1 H2].
    unfold completed in H2.
    destruct (add_track_by_url _ w) as [o a' w' t']. cbn in *. intuition.
Qed.

(** C6. Cursor monotonicity: over any sequence of skip and add
    operations the cursor never decreases, and when the [N] operations of
    the sequence are all completed it ends at the starting cursor plus
    [N], each of them having advanced it by exactly one. *)
Theorem cursor_monotonicity ops a w :
  current_index a <= current_index (after_ops ops a w).1
  /\ (all_completed ops a w ->
      current_index (after_ops ops a w).1 = current_index a + length ops).
Proof.
  revert a w. induction ops as [|o ops IH]; intros a w; cbn [after_ops].
  - cbn. split; [reflexivity|]. intros _. lia.
  - destruct (exec_op_index o a w) as [Hle Hadv].
    destruct (IH (app (exec_op o a w)) (world (exec_op o a w))) as [IH1 IH2].
    split; [lia|].
    cbn [all_completed length]. intros [Hc Hrest].
    rewrite (IH2 Hrest), (Hadv Hc). lia.
Qed.

Lemma cursor_monotonicity_witness :
  let ops := [OpAddSelected None; OpSkip; OpAddUrl "spotify:track:9"] in
  let a := app (demo_start []) in
  let w := world (demo_start []) in
  all_completed ops a w
  /\ current_index (after_ops ops a w).1 = current_index a + 3.
Proof.
  intros ops a w.
  assert (H : all_completed ops a w) by (vm_compute; repeat split).
  split; [exact H|].
  exact (proj2 (cursor_monotonicity ops a w) H).
Defined.

(** ** Skipping *)

Lemma skip_file_spec a w path :
  audio_files a !! current_index a = Some path ->
  let r := skip_file a w in
  skipped_songs (app r) = skipped_songs a ++ [Path.basename path]
  /\ audio_files (app r) = audio_files a
  /\ current_index (app r) = S (current_index a)
  /\ playlists (world r) = playlists w
  /\ quiet (trace r) = true.
Proof.
  intros Hp. unfold skip_file. unfold_prims. rewrite Hp.
  run_cases; summaries; finish.
Qed.

Lemma take_drop_S {X} (l : list X) i x k :
  l !! i = Some x -> take (S k) (drop i l) = x :: take k (drop (S i) l).
Proof.
  intros H. rewrite (drop_S l x i H). reflexivity.
Qed.

(** C7. Skip bookkeeping: a skip appends the basename of the current
    file at the end of the skipped list and makes no call that creates a
    playlist or appends to one, so that skipping [k] files in a row adds
    exactly their basenames, in order, and leaves every playlist as it
    was. *)
Theorem skip_bookkeeping a w :
  (forall path,
     audio_files a !! current_index a = Some path ->
     let r := skip_file a w in
     skipped_songs (app r) = skipped_songs a ++ [Path.basename path]
     /\ playlists (world r) = playlists w
     /\ quiet (trace r) = true)
  /\ (forall k,
        current_index a + k <= length (audio_files a) ->
        let s := after_ops (replicate k OpSkip) a w in
        skipped_songs s.1
        = skipped_songs a
          ++ map Path.basename (take k (drop (current_index a) (audio_files a)))
        /\ playlists s.2 = playlists w).
Proof.
  split.
  - intros path Hp. destruct (skip_file_spec a w path Hp) as (?&?&?&?&?).
    auto.
  - intros k. revert a w. induction k as [|k IH]; intros a w Hk.
    + cbn. rewrite app_nil_r. auto.
    + destruct (lookup_lt_is_Some_2 (audio_files a) (current_index a))
        as [path Hp]; [lia|].
      destruct (skip_file_spec a w path Hp) as (Hs & Hf & Hi & Hw & _).
      cbn [replicate after_ops exec_op].
      destruct (IH (app (skip_file a w)) (world (skip_file a w))) as [I1 I2].
      { rewrite Hf, Hi. lia. }
      cbn zeta in I1, I2. rewrite I1, I2, Hs, Hf, Hi, Hw.
      rewrite (take_drop_S _ _ _ _ Hp). cbn [map].
      rewrite <- app_assoc. auto.
Qed.

Lemma skip_bookkeeping_witness :
  let a := app (demo_start []) in
  let w := world (demo_start []) in
  (audio_files a !! current_index a = Some "/music/a.mp3"
   /\ skipped_songs (app (skip_file a w)) = ["a.mp3"])
  /\ (current_index a + 2 <= length (audio_files a)
      /\ skipped_songs (after_ops [OpSkip; OpSkip] a w).1
         = ["a.mp3"; "b.mp3"]
      /\ playlists (after_ops [OpSkip; OpSkip] a w).2 = []).
Proof.
  intros a w.
  assert (H1 : audio_files a !! current_index a = Some "/music/a.mp3")
    by reflexivity.
  assert (H2 : current_index a + 2 <= length (audio_files a))
    by (vm_compute; lia).
  destruct (skip_bookkeeping a w) as [S1 S2].
  destruct (S1 _ H1) as (E1 & _ & _).
  destruct (S2 2 H2) as (E2 & E3).
  split; [split; [exact H1 | exact E1]|].
  split; [exact H2|]. split; [exact E2 | exact E3].
Defined.

(** ** A failed add by direct reference *)

Lemma quiet_no_failed_lookup t :
  quiet t = true -> existsb is_failed_lookup t = false.
Proof.
  induction t as [|e t IH]; [reflexivity|].
  rewrite quiet_cons. intros [He Ht]%andb_prop. cbn [existsb].
  rewrite (IH Ht), orb_false_r.
  destruct e as [| | ref [[info|]|] | | | | | | | | | | | |]; cbn in *;
    congruence.
Qed.

Lemma existsb_failed_app t1 t2 :
  existsb is_failed_lookup (t1 ++ t2)
  = existsb is_failed_lookup t1 || existsb is_failed_lookup t2.
Proof. apply existsb_app. Qed.

Lemma playlist_items_new w w' p :
  playlists w' = playlists w ++ [p] -> pl_items p = [] ->
  forall pid, playlist_items w' pid = playlist_items w pid.
Proof.
  intros Hw Hp pid. unfold playlist_items. rewrite Hw.
  destruct (decide (pid < length (playlists w))) as [Hlt|Hge].
  - now rewrite lookup_app_l.
  - rewrite lookup_app_r by lia.
    rewrite (lookup_ge_None_2 (playlists w)) by lia.
    destruct (pid - length (playlists w)) as [|n]; cbn; [exact Hp|].
    now destruct n.
Qed.

Lemma playlist_items_same w w' :
  playlists w' = playlists w ->
  forall pid, playlist_items w' pid = playlist_items w pid.
Proof. intros Hw pid. unfold playlist_items. now rewrite Hw. Qed.

(** C4. When the lookup of an add by direct reference raises, or returns
    nothing or something that is not a track, the handler returns after
    an error box, and the cursor, the skipped list, the items of every
    playlist, the list of files, the current file and what the prompt
    shows are as before. *)
Theorem failed_reference_add a w :
  let r := add_track_by_url a w in
  existsb is_failed_lookup (trace r) = true ->
  current_index (app r) = current_index a
  /\ skipped_songs (app r) = skipped_songs a
  /\ (forall pid, playlist_items (world r) pid = playlist_items w pid)
  /\ audio_files (app r) = audio_files a
  /\ current_filepath (app r) = current_filepath a
  /\ main_frame (app r) = main_frame a
  /\ query_var (app r) = query_var a
  /\ results_frame (app r) = results_frame a
  /\ out r = Ret tt
  /\ existsb is_error_box (trace r) = true.
Proof.
  unfold add_track_by_url.
  run_cases; summaries;
    rewrite ?existsb_failed_app, ?existsb_error_app;
    repeat match goal with
    | H : quiet _ = true |- _ =>
        apply quiet_no_failed_lookup in H; rewrite ?H
    end;
    cbn;
    repeat match goal with
    | H : PyStr.nonempty _ = _ |- _ => clear H
    | H : (_ =? _)%string = _ |- _ => rewrite ?H
    end;
    try discriminate; intros _;
    repeat split;
    try (eapply playlist_items_new; eauto; reflexivity);
    try (apply playlist_items_same; cbn; congruence);
    try reflexivity.
Qed.

Lemma failed_reference_add_witness :
  let a := set_url_var "spotify:track:0" (app (demo_start [])) in
  let w := world (demo_start []) in
  existsb is_failed_lookup (trace (add_track_by_url a w)) = true
  /\ current_index (app (add_track_by_url a w)) = current_index a
  /\ playlists (world (add_track_by_url a w))
     = [mkPlaylist "me" "mix" true []].
Proof.
  intros a w.
  assert (H : existsb is_failed_lookup (trace (add_track_by_url a w)) = true)
    by reflexivity.
  split; [exact H|].
  split; [exact (proj1 (failed_reference_add a w H)) | reflexivity].
Defined.

(** ** Committing an empty selection *)

(** C10, as stated, fails: with no playlist yet and a client whose
    [current_user] call raises, committing an empty selection leaves the
    cursor where it was. *)
Lemma empty_selection_counterexample :
  ~ (forall a w,
       track_var a = Some EmptyString ->
       current_index (app (add_to_playlist a w)) = S (current_index a)).
Proof.
  intros H.
  specialize (H (set_track_var (Some EmptyString)
                   (app (demo_start [false; true])))
                (world (demo_start [false; true])) eq_refl).
  vm_compute in H. discriminate H.
Qed.

(** C10, amended. Committing an empty selection appends nothing to any
    playlist and records nothing in the skipped list; the cursor advances
    by one unless the lazy playlist creation that comes first raises, in
    which case the exception escapes and the cursor stays. *)
Theorem empty_selection_commit a w :
  track_var a = Some EmptyString ->
  let r := add_to_playlist a w in
  (forall pid, playlist_items (world r) pid = playlist_items w pid)
  /\ add_targets (trace r) = []
  /\ skipped_songs (app r) = skipped_songs a
  /\ (~ creation_raises a w ->
      current_index (app r) = S (current_index a))
  /\ (creation_raises a w ->
      current_index (app r) = current_index a
      /\ exists e, out r = Raise e).
Proof.
  intros Ht. unfold add_to_playlist, creation_raises.
  run_cases; summaries; simplify_eq/=; read_trace;
    (split; [|split; [|split; [|split]]]);
    try reflexivity; try congruence;
    try (eapply playlist_items_new; eauto; reflexivity);
    try (apply playlist_items_same; cbn; congruence);
    try (intros [? [? ?]]; simplify_eq; eauto; fail);
    try (intros Hn; exfalso; apply Hn; eauto; fail);
    try (eapply playlist_items_new; [etrans; eassumption | reflexivity]).
Qed.

Lemma empty_selection_commit_witness :
  let a := set_track_var (Some EmptyString) (app (demo_start [])) in
  let w := world (demo_start []) in
  track_var a = Some EmptyString
  /\ ~ creation_raises a w
  /\ current_index (app (add_to_playlist a w)) = S (current_index a)
  /\ skipped_songs (app (add_to_playlist a w)) = skipped_songs a.
Proof.
  intros a w.
  assert (H : track_var a = Some EmptyString) by reflexivity.
  assert (Hn : ~ creation_raises a w).
  { intros [_ [e He]]. vm_compute in He. discriminate He. }
  destruct (empty_selection_commit a w H) as (_ & _ & Hs & Hadv & _).
  split; [exact H|]. split; [exact Hn|].
  split; [exact (Hadv Hn) | exact Hs].
Defined.

(** ** One playlist per session *)

Lemma playlist_step_quiet a a' tr :
  playlist_id a' = playlist_id a -> quiet tr = true -> playlist_step a a' tr.
Proof.
  intros Hid Hq. unfold playlist_step.
  rewrite (quiet_creations _ Hq), (quiet_add_targets _ Hq), Hid.
  destruct (playlist_id a); auto.
Qed.

Lemma playlist_step_more a a' tr extra :
  playlist_step a a' tr -> quiet extra = true ->
  playlist_step a a' (tr ++ extra).
Proof.
  intros H Hq. unfold playlist_step in *.
  rewrite creations_app, add_targets_app, (quiet_creations _ Hq),
    (quiet_add_targets _ Hq), !app_nil_r.
  exact H.
Qed.

Lemma playlist_inv_step a a' t tr :
  playlist_inv a t -> playlist_step a a' tr -> playlist_inv a' (t ++ tr).
Proof.
  unfold playlist_inv, playlist_step.
  rewrite creations_app, add_targets_app.
  destruct (playlist_id a) as [pid|].
  - intros [C F] (-> & -> & F'). rewrite app_nil_r.
    split; [exact C|]. now apply Forall_app.
  - intros [-> ->] [(-> & -> & ->)|(pid & -> & -> & F')]; cbn; auto.
Qed.

Ltac step_close :=
  try solve [repeat split; first [congruence | repeat constructor]];
  try solve [left; repeat split; congruence];
  try solve [right; eexists; repeat split;
             first [congruence | eassumption | repeat constructor]].

Lemma add_to_playlist_step a w :
  playlist_step a (app (add_to_playlist a w)) (trace (add_to_playlist a w)).
Proof.
  unfold add_to_playlist, playlist_step.
  run_cases; summaries; simplify_eq/=; read_trace;
    rewrite ?app_nil_r; step_close.
Qed.

Lemma add_track_by_url_step a w :
  playlist_step a (app (add_track_by_url a w)) (trace (add_track_by_url a w)).
Proof.
  unfold add_track_by_url, playlist_step.
  run_cases; summaries; simplify_eq/=; read_trace;
    rewrite ?app_nil_r; step_close.
Qed.

Lemma passive_keeps {A} (m : M A) a w :
  passive m ->
  playlist_id (app (m a w)) = playlist_id a /\ quiet (trace (m a w)) = true.
Proof. intros H. destruct (H a w) as ((_ & Hid & _) & _ & Hq). auto. Qed.

Lemma select_directory_keeps directory name a w :
  let r := select_directory directory name a w in
  playlist_id (app r) = playlist_id a /\ quiet (trace r) = true.
Proof.
  unfold select_directory.
  destruct (PyStr.nonempty directory); [|split; reflexivity].
  unfold_prims.
  match goal with
  | |- context [show_file_prompt ?a' ?w'] =>
      destruct (passive_keeps show_file_prompt a' w'
                  passive_show_file_prompt) as [Hid Hq];
      destruct (show_file_prompt a' w') as [o a1 w1 t1]
  end.
  cbn in *. auto.
Qed.

Lemma skip_file_keeps a w :
  playlist_id (app (skip_file a w)) = playlist_id a
  /\ quiet (trace (skip_file a w)) = true.
Proof. unfold skip_file. run_cases; summaries; finish. Qed.

(** Only the two add handlers can create a playlist or append to one. *)
Lemma handler_keeps act a w :
  is_add_action act = false ->
  playlist_id (app (handler act a w)) = playlist_id a
  /\ quiet (trace (handler act a w)) = true.
Proof.
  destruct act; cbn [is_add_action handler]; intros Hadd;
    try discriminate;
    try (split; reflexivity);
    try apply select_directory_keeps; try apply skip_file_keeps;
    apply passive_keeps; auto with passive.
Qed.

Lemma handler_step act a w :
  playlist_step a (app (handler act a w)) (trace (handler act a w)).
Proof.
  destruct (is_add_action act) eqn:E.
  - destruct act; try discriminate; cbn [handler].
    + apply add_track_by_url_step.
    + apply add_to_playlist_step.
  - destruct (handler_keeps act a w E). now apply playlist_step_quiet.
Qed.

(** The report of an escaped exception adds one quiet event. *)
Lemma callback_result m a w :
  app (callback m a w) = app (m a w)
  /\ world (callback m a w) = world (m a w)
  /\ exists extra,
       trace (callback m a w) = trace (m a w) ++ extra
       /\ quiet extra = true.
Proof.
  unfold callback, try_except. destruct (m a w) as [[x|e] a1 w1 t1]; cbn.
  - repeat split. exists []. now rewrite app_nil_r.
  - repeat split. now exists [Traceback e].
Qed.

Lemma step_playlist_step act a w :
  playlist_step a (app (step act a w)) (trace (step act a w)).
Proof.
  unfold step. unfold_prims. destruct (enabled a act).
  - destruct (callback_result (handler act) a w) as (Ha & _ & extra & Ht & Hq).
    destruct (callback (handler act) a w) as [o a1 w1 t1]. cbn in *.
    subst. apply playlist_step_more; [apply handler_step | exact Hq].
  - cbn. now apply playlist_step_quiet.
Qed.

Lemma step_quiet act a w :
  is_add_action act = false -> quiet (trace (step act a w)) = true.
Proof.
  intros E. unfold step. unfold_prims. destruct (enabled a act); [|now cbn].
  destruct (callback_result (handler act) a w) as (_ & _ & extra & Ht & Hq).
  destruct (callback (handler act) a w) as [o a1 w1 t1]. cbn in *.
  subst. rewrite quiet_app, Hq.
  now destruct (handler_keeps act a w E) as [_ ->].
Qed.

Lemma run_cons act rest a w :
  let r := step act a w in
  let r' := run rest (app r) (world r) in
  app (run (act :: rest) a w) = app r'
  /\ world (run (act :: rest) a w) = world r'
  /\ trace (run (act :: rest) a w) = trace r ++ trace r'.
Proof.
  cbn [run]. unfold bind.
  assert (Ho : out (step act a w) = Ret tt).
  { unfold step. unfold_prims. destruct (enabled a act); [|reflexivity].
    unfold callback, try_except.
    now destruct (handler act a w) as [[[]|e] a1 w1 t1]. }
  destruct (step act a w) as [o a1 w1 t1]. cbn in *. subst o.
  now destruct (run rest a1 w1) as [o2 a2 w2 t2].
Qed.

Lemma run_playlist_inv acts a w t :
  playlist_inv a t ->
  playlist_inv (app (run acts a w)) (t ++ trace (run acts a w)).
Proof.
  revert a w t. induction acts as [|act rest IH]; intros a w t Hinv.
  - cbn. now rewrite app_nil_r.
  - destruct (run_cons act rest a w) as (-> & _ & ->).
    rewrite app_assoc. apply IH.
    eapply playlist_inv_step; [exact Hinv | apply step_playlist_step].
Qed.

Lemma run_lazy acts a w :
  forallb (fun act => negb (is_add_action act)) acts = true ->
  quiet (trace (run acts a w)) = true.
Proof.
  revert a w. induction acts as [|act rest IH]; intros a w; [reflexivity|].
  cbn [forallb]. intros [Hact Hrest]%andb_prop.
  destruct (run_cons act rest a w) as (_ & _ & ->).
  rewrite quiet_app, (IH _ _ Hrest), step_quiet; [reflexivity|].
  now apply negb_true_iff.
Qed.

Arguments create_calls : simpl never.

Lemma create_calls_app t1 t2 :
  create_calls (t1 ++ t2) = create_calls t1 ++ create_calls t2.
Proof. apply omap_app. Qed.

Lemma create_calls_cons e t :
  create_calls (e :: t)
  = match create_call e with
    | Some c => c :: create_calls t
    | None => create_calls t
    end.
Proof. reflexivity. Qed.

Lemma create_calls_nil : create_calls [] = [].
Proof. reflexivity. Qed.

Lemma quiet_create_calls t : quiet t = true -> create_calls t = [].
Proof.
  induction t as [|e t IH]; [reflexivity|].
  rewrite quiet_cons, create_calls_cons. intros [He Ht]%andb_prop.
  rewrite (IH Ht). destruct e; cbn in *; congruence.
Qed.

Ltac read_calls :=
  repeat progress
    (rewrite ?create_calls_app, ?create_calls_cons, ?create_calls_nil;
     repeat match goal with
     | H : quiet ?t = true |- context [create_calls ?t] =>
         rewrite (quiet_create_calls t H)
     end;
     cbn [create_call]).

Lemma calls_step_quiet a a' tr :
  playlist_id a' = playlist_id a -> quiet tr = true -> calls_step a a' tr.
Proof.
  intros Hid Hq. unfold calls_step.
  rewrite (quiet_create_calls _ Hq), Hid.
  destruct (playlist_id a); auto.
Qed.

Lemma calls_step_more a a' tr extra :
  calls_step a a' tr -> quiet extra = true -> calls_step a a' (tr ++ extra).
Proof.
  intros H Hq. unfold calls_step in *.
  rewrite create_calls_app, (quiet_create_calls _ Hq), !app_nil_r.
  exact H.
Qed.

Lemma calls_inv_step a a' t tr :
  calls_inv a t -> calls_step a a' tr -> calls_inv a' (t ++ tr).
Proof.
  unfold calls_inv, calls_step. rewrite create_calls_app.
  intros [k ->]. destruct (playlist_id a) as [pid|].
  - intros (-> & ->). exists k. now rewrite app_nil_r.
  - rewrite app_nil_r.
    intros [(-> & [->| ->])|(pid & -> & ->)].
    + exists k. now rewrite !app_nil_r.
    + exists (S k). rewrite app_nil_r. symmetry. apply repeat_cons.
    + now exists k.
Qed.

Ltac calls_close :=
  first
    [ solve [split; [congruence | reflexivity]]
    | solve [left; split; [congruence | auto]]
    | solve [right; eexists; split;
             [first [reflexivity | eassumption | congruence] | reflexivity]] ].

Lemma add_to_playlist_calls a w :
  calls_step a (app (add_to_playlist a w)) (trace (add_to_playlist a w)).
Proof.
  unfold add_to_playlist, calls_step.
  run_cases; summaries; simplify_eq/=; read_calls;
    rewrite ?app_nil_r; calls_close.
Qed.

Lemma add_track_by_url_calls a w :
  calls_step a (app (add_track_by_url a w)) (trace (add_track_by_url a w)).
Proof.
  unfold add_track_by_url, calls_step.
  run_cases; summaries; simplify_eq/=; read_calls;
    rewrite ?app_nil_r; calls_close.
Qed.

Lemma handler_calls act a w :
  calls_step a (app (handler act a w)) (trace (handler act a w)).
Proof.
  destruct (is_add_action act) eqn:E.
  - destruct act; try discriminate; cbn [handler].
    + apply add_track_by_url_calls.
    + apply add_to_playlist_calls.
  - destruct (handler_keeps act a w E). now apply calls_step_quiet.
Qed.

Lemma step_calls act a w :
  calls_step a (app (step act a w)) (trace (step act a w)).
Proof.
  unfold step. unfold_prims. destruct (enabled a act).
  - destruct (callback_result (handler act) a w) as (Ha & _ & extra & Ht & Hq).
    destruct (callback (handler act) a w) as [o a1 w1 t1]. cbn in *.
    subst. apply calls_step_more; [apply handler_calls | exact Hq].
  - cbn. now apply calls_step_quiet.
Qed.

Lemma run_calls_inv acts a w t :
  calls_inv a t -> calls_inv (app (run acts a w)) (t ++ trace (run acts a w)).
Proof.
  revert a w t. induction acts as [|act rest IH]; intros a w t Hinv.
  - cbn. now rewrite app_nil_r.
  - destruct (run_cons act rest a w) as (-> & _ & ->).
    rewrite app_assoc. apply IH.
    eapply calls_inv_step; [exact Hinv | apply step_calls].
Qed.




(** ** A search trigger *)

#[local] Arguments firstn : simpl never.

(** What every run of [search_spotify] does before and after the
    search. *)
Lemma search_spotify_clears a w :
  let r := search_spotify a w in
  let q := PyStr.strip (query_var a) in
  (exists removal,
     (removal = [] \/ exists p ok, removal = [OsRemove p ok])
     /\ (trace r = DestroyResults :: MusicStop :: removal
         \/ exists found,
              trace r
              = DestroyResults :: MusicStop :: removal ++ [Search q 5 found]))
  /\ existsb is_message_box (trace r) = false
  /\ (preview_temp_path (app r) = None /\ music_busy (world r) = false)
  /\ (q = EmptyString ->
      out r = Ret tt /\ existsb is_search (trace r) = false
      /\ results_frame (app r) = [])
  /\ (forall tracks,
        In (Search q 5 (Some tracks)) (trace r) ->
        out r = Ret tt /\ length tracks <= 5
        /\ match tracks with
           | [] =>
               results_frame (app r) = [NoResultsLabel]
               /\ existsb selectable (results_frame (app r)) = false
           | top :: _ =>
               track_var (app r) = Some (tr_uri top)
               /\ results_frame (app r) = map track_row tracks ++ [AddButton]
           end).
Proof.
  unfold search_spotify, stop_preview_audio.
  run_cases;
    (split;
     [first [ solve [exists []; split; [now left|]; first
                       [now left | right; eexists; reflexivity]]
            | solve [eexists [OsRemove _ _]; split;
                     [right; do 2 eexists; reflexivity|]; first
                       [now left | right; eexists; reflexivity]] ]
     | split; [reflexivity|]; split; [split; reflexivity|] ]).
  all: unfold PyStr.strip in *.
  all: split;
    [ intros Hq;
      first [ rewrite Hq in *; cbn in *; discriminate
            | repeat split; reflexivity ]
    | intros tracks Hin; cbn in Hin;
      repeat match goal with
      | H : _ \/ _ |- _ => destruct H
      end; simplify_eq; try contradiction ].
  all: match goal with
       | H : take 5 _ = ?l |- _ =>
           assert (length l <= 5)
             by (rewrite <- H, length_take; lia)
       end.
  all: repeat split; auto.
Qed.

Lemma search_spotify_submits a w :
  let r := search_spotify a w in
  let q := PyStr.strip (query_var a) in
  (q <> EmptyString -> sp a <> None ->
   exists found,
     last (trace r) = Some (Search q 5 found)
     /\ (found = None \/ found = Some (take 5 (search_index w q))))
  /\ (In (Search q 5 None) (trace r) ->
      (exists e, out r = Raise e) /\ results_frame (app r) = [])
  /\ (q <> EmptyString -> sp a = None ->
      out r = Raise AttributeError
      /\ existsb is_search (trace r) = false
      /\ results_frame (app r) = []).
Proof.
  unfold search_spotify, stop_preview_audio.
  run_cases.
  all: unfold PyStr.strip in *.
  all: (split; [|split]).
  all: try (intros Hq; exfalso; apply Hq;
            match goal with
            | H : negb (PyStr.nonempty ?s) = true |- _ =>
                destruct s; [reflexivity | discriminate H]
            end).
  all: try (intros Hin;
            repeat (destruct Hin as [Hin|Hin]; [discriminate Hin|]);
            first [ contradiction
                  | destruct Hin as [Hin|Hin]; [|contradiction];
                    first [ discriminate Hin
                          | split; [eexists; reflexivity | reflexivity] ] ]).
  all: try (intros _ Hsp; first [discriminate Hsp | congruence]).
  all: try (intros _ _; repeat split; reflexivity).
  all: try (intros _ _; eexists; split; [reflexivity|];
            first [left; reflexivity | right; congruence]).
Qed.

(** C8. Every run of [search_spotify] first destroys the previous result
    widgets and stops the preview (the stream, then its temporary file),
    and only then submits the stripped query, with limit 5; afterwards no
    stream is playing and no preview file is recorded.  An empty
    query submits nothing and shows nothing; an empty result shows only
    the "No results found." label; both return without a message box and
    leave nothing selectable.  A non-empty result has at most 5 tracks,
    preselects the first one and shows one row per track and the add
    button.  With a client, a non-empty query is submitted: the search
    for it is the last call, and what it returns are the first 5 tracks
    of the catalog for the query.  When the search raises, or there is
    no client, the call raises and the results stay cleared. *)
Theorem search_trigger a w :
  let r := search_spotify a w in
  let q := PyStr.strip (query_var a) in
  (exists removal,
     (removal = [] \/ exists p ok, removal = [OsRemove p ok])
     /\ (trace r = DestroyResults :: MusicStop :: removal
         \/ exists found,
              trace r
              = DestroyResults :: MusicStop :: removal ++ [Search q 5 found]))
  /\ existsb is_message_box (trace r) = false
  /\ (preview_temp_path (app r) = None /\ music_busy (world r) = false)
  /\ (q = EmptyString ->
      out r = Ret tt /\ existsb is_search (trace r) = false
      /\ results_frame (app r) = [])
  /\ (forall tracks,
        In (Search q 5 (Some tracks)) (trace r) ->
        out r = Ret tt /\ length tracks <= 5
        /\ match tracks with
           | [] =>
               results_frame (app r) = [NoResultsLabel]
               /\ existsb selectable (results_frame (app r)) = false
           | top :: _ =>
               track_var (app r) = Some (tr_uri top)
               /\ results_frame (app r) = map track_row tracks ++ [AddButton]
           end)
  /\ (q <> EmptyString -> sp a <> None ->
      exists found,
        last (trace r) = Some (Search q 5 found)
        /\ (found = None \/ found = Some (take 5 (search_index w q))))
  /\ (In (Search q 5 None) (trace r) ->
      (exists e, out r = Raise e) /\ results_frame (app r) = [])
  /\ (q <> EmptyString -> sp a = None ->
      out r = Raise AttributeError
      /\ existsb is_search (trace r) = false
      /\ results_frame (app r) = []).
Proof.
  destruct (search_spotify_clears a w) as (H1 & H2 & H3 & H4 & H5).
  destruct (search_spotify_submits a w) as (H6 & H7 & H8).
  exact (conj H1 (conj H2 (conj H3 (conj H4
           (conj H5 (conj H6 (conj H7 H8))))))).
Qed.

Lemma search_trigger_witness :
  let a := app (demo_start []) in
  let w := world (demo_start []) in
  let blank := set_query_var "  " a in
  (PyStr.strip (query_var blank) = EmptyString
   /\ results_frame (app (search_spotify blank w)) = [])
  /\ (In (Search "a" 5
            (Some [demo_track "spotify:track:1" "A1";
                   demo_track "spotify:track:2" "A2"]))
         (trace (search_spotify a w))
      /\ track_var (app (search_spotify a w)) = Some "spotify:track:1")
  /\ ((PyStr.strip (query_var a) <> EmptyString /\ sp a <> None)
      /\ exists found,
           last (trace (search_spotify a w)) = Some (Search "a" 5 found)).
Proof.
  intros a w blank.
  assert (H1 : PyStr.strip (query_var blank) = EmptyString) by reflexivity.
  assert (H2 : In (Search (PyStr.strip (query_var a)) 5
                     (Some [demo_track "spotify:track:1" "A1";
                            demo_track "spotify:track:2" "A2"]))
                  (trace (search_spotify a w)))
    by (vm_compute; auto).
  assert (H3 : PyStr.strip (query_var a) <> EmptyString) by discriminate.
  assert (H4 : sp a <> None) by discriminate.
  destruct (search_trigger blank w) as (_ & _ & _ & He & _).
  destruct (search_trigger a w) as (_ & _ & _ & _ & Hs & Hq & _).
  split; [|split].
  - split; [exact H1 | exact (proj2 (proj2 (He H1)))].
  - split; [exact H2 | exact (proj1 (proj2 (proj2 (Hs _ H2))))].
  - split; [split; [exact H3 | exact H4]|].
    destruct (Hq H3 H4) as (found & Hl & _). exists found. exact Hl.
Defined.

(** ** The default query *)

Lemma search_spotify_fields a w :
  let r := search_spotify a w in
  query_var (app r) = query_var a /\ url_var (app r) = url_var a
  /\ main_frame (app r) = main_frame a
  /\ current_filepath (app r) = current_filepath a.
Proof.
  unfold search_spotify, stop_preview_audio. run_cases; auto.
Qed.

Lemma show_file_prompt_query a w path :
  audio_files a !! current_index a = Some path ->
  let r := show_file_prompt a w in
  let '(title, artist, _) := get_file_metadata w path in
  query_var (app r) = prefill_text title artist (Path.basename path)
  /\ current_filepath (app r) = Some path.
Proof.
  intros Hp. unfold show_file_prompt. unfold_prims.
  assert (Hlt : (length (audio_files a) <=? current_index a) = false).
  { apply Nat.leb_gt. now apply lookup_lt_Some in Hp. }
  rewrite Hlt. unfold_prims. rewrite Hp.
  destruct (get_file_metadata w path) as [[title artist] duration_str].
  unfold_prims.
  match goal with
  | |- context [search_spotify ?a' ?w'] =>
      destruct (search_spotify_fields a' w') as (Hq & _ & _ & Hc);
      destruct (search_spotify a' w') as [o a1 w1 t1]
  end.
  cbn in *. auto.
Qed.

(** C2. For the file presented at the cursor, the query the prompt is
    prefilled with is ["{title} {artist}"] when the local title and artist
    are both present (not [None] and not empty), the one that is present
    when exactly one is, and the filename without its extension when
    neither is. *)
Theorem default_query a w path :
  audio_files a !! current_index a = Some path ->
  let query := query_var (app (show_file_prompt a w)) in
  let title := (get_file_metadata w path).1.1 in
  let artist := (get_file_metadata w path).1.2 in
  (PyStr.truthy title = true -> PyStr.truthy artist = true ->
   query = String.append (str_of title) (String " "%char (str_of artist)))
  /\ (PyStr.truthy title = true -> PyStr.truthy artist = false ->
      query = str_of title)
  /\ (PyStr.truthy title = false -> PyStr.truthy artist = true ->
      query = str_of artist)
  /\ (PyStr.truthy title = false -> PyStr.truthy artist = false ->
      query = fst (Path.splitext (Path.basename path))).
Proof.
  intros Hp. pose proof (show_file_prompt_query a w path Hp) as H.
  cbn zeta in *.
  destruct (get_file_metadata w path) as [[title artist] duration_str].
  destruct H as [-> _]. cbn [fst snd]. unfold prefill_text.
  repeat split; intros -> ->; reflexivity.
Qed.

Lemma default_query_witness :
  let a := app (demo_start []) in
  let w := world (demo_start []) in
  let b := app (skip_file a w) in
  let w' := world (skip_file a w) in
  (audio_files a !! current_index a = Some "/music/a.mp3"
   /\ query_var (app (show_file_prompt a w)) = "a")
  /\ (audio_files b !! current_index b = Some "/music/b.mp3"
      /\ query_var (app (show_file_prompt b w')) = "Song B Artist X").
Proof.
  intros a w b w'.
  assert (Ha : audio_files a !! current_index a = Some "/music/a.mp3")
    by reflexivity.
  assert (Hb : audio_files b !! current_index b = Some "/music/b.mp3")
    by reflexivity.
  destruct (default_query a w _ Ha) as (_ & _ & _ & Hnone).
  destruct (default_query b w' _ Hb) as (Hboth & _).
  split.
  - split; [exact Ha | exact (Hnone eq_refl eq_refl)].
  - split; [exact Hb | exact (Hboth eq_refl eq_refl)].
Defined.

(** ** Enumeration of the candidate files *)

Lemma not_blacklisted_iff p :
  not_blacklisted p = true
  <-> PyStr.lower (snd (Path.splitext p)) ∉ BLACKLIST_EXTENSIONS.
Proof.
  unfold not_blacklisted, str_in. rewrite negb_true_iff.
  rewrite <- not_true_iff_false, existsb_exists.
  split; intros H Hin; apply H.
  - exists (PyStr.lower (Path.splitext p).2). split.
    + now apply list_elem_of_In.
    + apply String.eqb_refl.
  - destruct Hin as (x & Hx & ->%String.eqb_eq). now apply list_elem_of_In.
Qed.

Lemma select_directory_files directory name a w :
  PyStr.nonempty directory = true ->
  audio_files (app (select_directory directory name a w))
  = candidate_files directory (dir_tree w directory).
Proof.
  intros Hd. unfold select_directory. rewrite Hd. unfold_prims.
  match goal with
  | |- context [show_file_prompt ?a' ?w'] =>
      destruct (passive_show_file_prompt a' w') as ((_&_&_&Hf&_) & _);
      destruct (show_file_prompt a' w') as [o a1 w1 t1]
  end.
  cbn in *. exact Hf.
Qed.

(** C1. The files [select_directory] enumerates for a directory are the
    files of the recursive walk whose extension, lower-cased, is not one
    of [.jpg], [.jpeg], [.png], [.gif] -- each of those and no other --
    and they are stored sorted by lower-cased basename. *)
Theorem candidate_enumeration directory name a w :
  PyStr.nonempty directory = true ->
  plain_names directory (dir_tree w directory) = true ->
  let files := audio_files (app (select_directory directory name a w)) in
  files
    ≡ₚ filter
         (fun p => PyStr.lower (snd (Path.splitext p)) ∉ BLACKLIST_EXTENSIONS)
         (walked_files directory (dir_tree w directory))
  /\ StronglySorted basename_le files.
Proof.
  intros Hd Hn files. unfold files. rewrite select_directory_files by exact Hd.
  destruct (candidate_files_spec directory (dir_tree w directory) Hn)
    as [Hperm Hsorted].
  split; [|exact Hsorted].
  rewrite Hperm. erewrite list_filter_iff; [reflexivity|].
  intros p. apply not_blacklisted_iff.
Qed.

Lemma candidate_enumeration_witness :
  let w := demo_world [] in
  let a := init (Some SpotifyClient) in
  PyStr.nonempty "/music" = true
  /\ plain_names "/music" (dir_tree w "/music") = true
  /\ audio_files (app (select_directory "/music" (Some "mix") a w))
     = ["/music/a.mp3"; "/music/b.mp3"; "/music/live/C.flac"]
  /\ StronglySorted basename_le
       (audio_files (app (select_directory "/music" (Some "mix") a w))).
Proof.
  intros w a.
  assert (H1 : PyStr.nonempty "/music" = true) by reflexivity.
  assert (H2 : plain_names "/music" (dir_tree w "/music") = true)
    by reflexivity.
  split; [exact H1|]. split; [exact H2|]. split; [reflexivity|].
  exact (proj2 (candidate_enumeration "/music" (Some "mix") a w H1 H2)).
Defined.

(** The end-to-end scenario of the specification: [b.mp3] tagged
    "Song B" / "Artist X" and [a.mp3] without tags are presented in the
    order [a.mp3], [b.mp3], with the queries "a" and "Song B Artist X". *)
Example end_to_end :
  let r := demo_start [] in
  take 2 (audio_files (app r)) = ["/music/a.mp3"; "/music/b.mp3"]
  /\ query_var (app r) = "a"
  /\ query_var (app (skip_file (app r) (world r))) = "Song B Artist X"
  /\ skipped_songs
       (after_ops [OpSkip; OpSkip] (app r) (world r)).1 = ["a.mp3"; "b.mp3"]
  /\ playlists (after_ops [OpSkip; OpSkip] (app r) (world r)).2 = [].
Proof. vm_compute. repeat split. Qed.

(** ** Errors of the catalog client *)

(** The sibling handler does catch: once the playlist exists,
    [add_track_by_url] always returns. *)
Lemma add_track_by_url_catches a w pid :
  playlist_id a = Some pid -> out (add_track_by_url a w) = Ret tt.
Proof.
  intros Hid. unfold add_track_by_url. unfold_prims. rewrite Hid.
  run_cases; repeat match goal with x : unit |- _ => destruct x end;
    reflexivity.
Qed.

(** C5 fails on the code. A search that raises is not caught in
    [search_spotify]: the exception escapes to Tk, which prints a
    traceback, and no message box is shown; without a client (failed
    authentication) the first prompt already ends that way.  In
    [add_to_playlist] a failing append escapes in the same way, after the
    lazy creation has already created the playlist and stored its id;
    the cursor and the items of the playlists are as before. *)
Theorem catalog_errors_escape :
  let a := app (demo_start []) in
  let w := world (demo_start []) in
  let s := step PressSearch a (set_faults [true] w) in
  let c := step PressAddToPlaylist a (set_faults [false; false; true] w) in
  let n := step (PressSelectDirectory "/music" (Some "mix")) (init None)
             (demo_world []) in
  trace s
  = [DestroyResults; MusicStop; Search "a" 5 None; Traceback SpotifyException]
  /\ results_frame (app s) = []
  /\ trace n = [DestroyResults; MusicStop; Traceback AttributeError]
  /\ trace c
     = [CurrentUser true; UserPlaylistCreate "mix" (Some 0);
        PlaylistAddItems (Some 0) ["spotify:track:1"] false;
        Traceback SpotifyException]
  /\ current_index (app c) = current_index a
  /\ playlist_id a = None /\ playlist_id (app c) = Some 0
  /\ playlists (world c) = [mkPlaylist "me" "mix" true []].
Proof. vm_compute. repeat split. Qed.

(** ** Playback *)

Lemma play_local_audio_keeps_preview a w :
  let r := play_local_audio a w in
  preview_temp_path (app r) = preview_temp_path a
  /\ disk (world r) = disk w.
Proof. unfold play_local_audio. run_cases; auto. Qed.

Lemma stop_preview_audio_removes a w p :
  preview_temp_path a = Some p -> PyStr.nonempty p = true ->
  faults w = [] ->
  let r := stop_preview_audio a w in
  (p ∉ disk (world r)) /\ preview_temp_path (app r) = None
  /\ music_busy (world r) = false.
Proof.
  intros Hp Hn Hf. unfold stop_preview_audio. unfold_prims. rewrite Hp, Hn.
  unfold path_exists, str_in. cbn.
  destruct (existsb (String.eqb p) (disk w)) eqn:E; unfold_prims.
  - rewrite Hf. unfold_prims. unfold path_exists, str_in. cbn.
    rewrite E. cbn. repeat split.
    rewrite list_elem_of_filter. tauto.
  - repeat split. rewrite list_elem_of_In. intros Hin.
    apply not_true_iff_false in E. apply E, existsb_exists.
    exists p. split; [exact Hin | apply String.eqb_refl].
Qed.

(** C9 fails on the code. Starting the local file while a preview is
    playing replaces the stream -- [pygame.mixer.music] holds one -- but
    [play_local_audio] calls [stop_local_audio] only, not
    [stop_preview_audio]: the temporary file of the superseded preview
    is still on disk afterwards. *)
Theorem local_playback_keeps_preview_file :
  let a := app (demo_start []) in
  let w := world (demo_start []) in
  let p := play_spotify_preview (Some "https://p.example/clip") a w in
  let l := play_local_audio (app p) (world p) in
  preview_temp_path (app p) = Some "/tmp/tmp0.mp3"
  /\ music_loaded (world p) = Some "/tmp/tmp0.mp3"
  /\ music_busy (world p) = true
  /\ music_loaded (world l) = Some "/music/a.mp3"
  /\ music_busy (world l) = true
  /\ In "/tmp/tmp0.mp3" (disk (world l))
  /\ preview_temp_path (app l) = Some "/tmp/tmp0.mp3".
Proof. vm_compute. repeat split; auto 10. Qed.

(** * Further properties *)

(** ** Previews and local playback *)

Lemma str_in_true x l : str_in x l = true <-> x ∈ l.
Proof.
  unfold str_in. rewrite existsb_exists, list_elem_of_In. split.
  - intros (y & Hy & ->%String.eqb_eq). exact Hy.
  - intros H. exists x. split; [exact H | apply String.eqb_refl].
Qed.

Lemma str_in_false x l : str_in x l = false -> x ∉ l.
Proof. intros H Hin%str_in_true. congruence. Qed.

Lemma stop_preview_audio_fields a w :
  let r := stop_preview_audio a w in
  out r = Ret tt
  /\ app r = set_preview_temp_path None a
  /\ music_busy (world r) = false
  /\ (forall q, q ∈ disk (world r) -> q ∈ disk w)
  /\ (forall q, q ∈ disk w -> preview_temp_path a <> Some q ->
      q ∈ disk (world r)).
Proof.
  unfold stop_preview_audio. run_cases.
  all: repeat split; auto; try discriminate.
  all: try (intros q; rewrite list_elem_of_filter; tauto).
  all: intros q Hq Hne; rewrite list_elem_of_filter; split; congruence.
Qed.

(** X1. [stop_preview_audio] always returns, leaves nothing playing and
    forgets the preview path.  The only file it can remove is the
    recorded preview file: every other file stays on disk, the recorded
    one is gone unless its removal failed, and a failed removal leaves
    the disk as it was (the file is then no longer recorded). *)
Theorem stop_preview_audio_releases a w :
  let r := stop_preview_audio a w in
  out r = Ret tt
  /\ app r = set_preview_temp_path None a
  /\ music_busy (world r) = false
  /\ (forall q, q ∈ disk (world r) -> q ∈ disk w)
  /\ (forall q, q ∈ disk w -> preview_temp_path a <> Some q ->
      q ∈ disk (world r))
  /\ (forall p, preview_temp_path a = Some p -> p <> EmptyString ->
      existsb is_failed_remove (trace r) = false -> p ∉ disk (world r))
  /\ (existsb is_failed_remove (trace r) = true -> disk (world r) = disk w).
Proof.
  unfold stop_preview_audio. run_cases.
  all: repeat split; auto; try discriminate.
  all: try (intros q; rewrite list_elem_of_filter; tauto).
  all: try (intros q Hq Hne; rewrite list_elem_of_filter; split; congruence).
  all: intros p Hp Hne _; simplify_eq.
  all: try (rewrite list_elem_of_filter; tauto).
  all: apply str_in_false.
  all: destruct p; [congruence|]; cbn in *; assumption.
Qed.

(** X2. Stopping the preview twice: the second call only stops the
    mixer again; it removes nothing and changes neither the fields nor
    the world. *)
Theorem stop_preview_audio_idempotent a w :
  let r := stop_preview_audio a w in
  let r' := stop_preview_audio (app r) (world r) in
  app r' = app r /\ world r' = world r /\ trace r' = [MusicStop].
Proof.
  pose proof (stop_preview_audio_fields a w) as (_ & Ha & Hb & _).
  cbn zeta in *.
  destruct (stop_preview_audio a w) as [o a1 w1 t1]. cbn in *. subst a1.
  unfold stop_preview_audio. unfold_prims.
  destruct w1; cbn in *. subst. repeat split.
Qed.

Lemma play_spotify_preview_returns url a w :
  out (play_spotify_preview url a w) = Ret tt.
Proof.
  unfold play_spotify_preview, stop_preview_audio.
  run_cases; repeat match goal with x : unit |- _ => destruct x end;
    reflexivity.
Qed.

(** X3. [play_spotify_preview] always returns.  Without a preview URL
    it only tells the user so; when the download fails no temporary
    file is made and an error box is shown; in both cases nothing plays
    and no preview is recorded.  A recorded preview is a temporary file
    made by this call and it is on disk; when the preview plays, no
    error was shown and the mixer holds the recorded file. *)
Theorem play_spotify_preview_effect url a w :
  let r := play_spotify_preview url a w in
  out r = Ret tt
  /\ (PyStr.truthy url = false ->
      existsb is_temp_file (trace r) = false
      /\ In (MessageBox ShowInfo MsgPreviewUnavailable) (trace r)
      /\ preview_temp_path (app r) = None /\ music_busy (world r) = false)
  /\ (existsb is_failed_download (trace r) = true ->
      existsb is_temp_file (trace r) = false
      /\ existsb is_error_box (trace r) = true
      /\ preview_temp_path (app r) = None /\ music_busy (world r) = false)
  /\ (forall p, preview_temp_path (app r) = Some p ->
      p ∈ disk (world r) /\ In (TempFile p) (trace r))
  /\ (music_busy (world r) = true ->
      existsb is_error_box (trace r) = false
      /\ exists p, preview_temp_path (app r) = Some p
                   /\ music_loaded (world r) = Some p).
Proof.
  unfold play_spotify_preview, stop_preview_audio.
  run_cases; cbn; repeat split; try discriminate; auto 10.
  all: simplify_eq; auto 10.
  all: try (rewrite elem_of_app; right; apply list_elem_of_singleton;
            reflexivity).
  all: try (eexists; split; reflexivity).
Qed.

Lemma stop_preview_audio_shape a w :
  trace (stop_preview_audio a w) = [MusicStop]
  \/ exists p ok, trace (stop_preview_audio a w) = [MusicStop; OsRemove p ok].
Proof. unfold stop_preview_audio. run_cases; eauto. Qed.

Lemma play_local_audio_fields a w :
  out (play_local_audio a w) = Ret tt /\ app (play_local_audio a w) = a.
Proof.
  unfold play_local_audio.
  run_cases; repeat match goal with x : unit |- _ => destruct x end;
    split; reflexivity.
Qed.

(** X4. [play_local_audio] always returns and changes neither the fields
    nor the disk.  When something plays afterwards it is the current
    file, which exists; when the current file does not exist the call
    only stops the mixer; when the file exists and nothing plays, an
    error box has been shown. *)
Theorem play_local_audio_effect a w :
  let r := play_local_audio a w in
  out r = Ret tt /\ app r = a /\ disk (world r) = disk w
  /\ (music_busy (world r) = true ->
      exists p, current_filepath a = Some p /\ p ∈ disk w
                /\ music_loaded (world r) = Some p)
  /\ ((forall p, current_filepath a = Some p -> p ∉ disk w) ->
      trace r = [MusicStop] /\ music_busy (world r) = false)
  /\ (music_busy (world r) = false ->
      forall p, current_filepath a = Some p -> p <> EmptyString ->
      p ∈ disk w -> existsb is_error_box (trace r) = true).
Proof.
  unfold play_local_audio. unfold path_exists.
  run_cases; cbn; repeat split; try discriminate; auto.
  all: try (intros _; eexists; split; [reflexivity|]; split; [|reflexivity];
            apply str_in_true;
            match goal with
            | H : _ && _ = true |- _ => apply andb_prop in H as [_ H]; exact H
            end).
  all: try (match goal with
            | E : _ && _ = true, H : forall p, _ = Some p -> _ |- _ =>
                apply andb_prop in E as [_ E]; apply str_in_true in E;
                exfalso; eapply H; [reflexivity | exact E]
            end).
  all: try (intros _ p [= <-] Hne Hin;
            match goal with
            | E : _ && _ = false |- _ =>
                apply andb_false_iff in E as [E|E];
                [destruct s; [congruence | discriminate]
                |apply str_in_false in E; contradiction]
            end).
Qed.

(** ** What Tk reports *)

Arguments escaped : simpl never.

Section Hushed.

Lemma escaped_app t1 t2 : escaped (t1 ++ t2) = escaped t1 ++ escaped t2.
Proof. apply omap_app. Qed.

Context {A B : Type}.

Lemma hushed_ret (x : A) : hushed (ret x).
Proof. intros a w. reflexivity. Qed.

Lemma hushed_raise e : hushed (@raise A e).
Proof. intros a w. reflexivity. Qed.

Lemma hushed_bind (m : M A) (f : A -> M B) :
  hushed m -> (forall x, hushed (f x)) -> hushed (bind m f).
Proof.
  intros Hm Hf a w. unfold bind. specialize (Hm a w).
  destruct (m a w) as [[x|e] a1 w1 t1]; cbn in *; [|exact Hm].
  specialize (Hf x a1 w1).
  destruct (f x a1 w1) as [o a2 w2 t2]; cbn in *.
  now rewrite escaped_app, Hm, Hf.
Qed.

Lemma hushed_try (m : M A) (h : exn -> M A) :
  hushed m -> (forall e, hushed (h e)) -> hushed (try_except m h).
Proof.
  intros Hm Hh a w. unfold try_except. specialize (Hm a w).
  destruct (m a w) as [[x|e] a1 w1 t1]; cbn in *; [exact Hm|].
  specialize (Hh e a1 w1).
  destruct (h e a1 w1) as [o a2 w2 t2]; cbn in *.
  now rewrite escaped_app, Hm, Hh.
Qed.

End Hushed.

Lemma hushed_self : hushed self.
Proof. intros a w. reflexivity. Qed.

Lemma hushed_outside : hushed outside.
Proof. intros a w. reflexivity. Qed.

Lemma hushed_fault : hushed fault.
Proof. intros a w. unfold fault. now destruct (faults w). Qed.

Lemma hushed_assign f : hushed (assign f).
Proof. intros a w. reflexivity. Qed.

Lemma hushed_effect g : hushed (effect g).
Proof. intros a w. reflexivity. Qed.

Lemma hushed_emit e : reported e = None -> hushed (emit e).
Proof. intros H a w. cbn. unfold escaped. cbn. now rewrite H. Qed.

Ltac hushed_step :=
  match goal with
  | |- hushed (bind _ _) => apply hushed_bind; [|intros ?]
  | |- hushed (try_except _ _) => apply hushed_try; [|intros ?]
  | |- hushed (assign _) => apply hushed_assign
  | |- hushed (effect _) => apply hushed_effect
  | |- hushed (emit _) => apply hushed_emit; reflexivity
  | |- hushed (messagebox _ _) => apply hushed_emit; reflexivity
  | |- hushed self => apply hushed_self
  | |- hushed outside => apply hushed_outside
  | |- hushed fault => apply hushed_fault
  | |- hushed (ret _) => apply hushed_ret
  | |- hushed (raise _) => apply hushed_raise
  | |- hushed (if ?c then _ else _) => destruct c
  | |- hushed (match ?x with _ => _ end) => destruct x
  | |- hushed ?m => progress (unfold m)
  | |- hushed (?m _) => progress (unfold m)
  | |- hushed (?m _ _) => progress (unfold m)
  | |- hushed (?m _ _ _) => progress (unfold m)
  end.

Lemma hushed_handler act : hushed (handler act).
Proof. destruct act; cbn [handler]; repeat hushed_step. Qed.

(** ** The invariant of the window *)

Lemma create_playlist_raises a w e :
  out (create_playlist a w) = Raise e ->
  e = SpotifyException /\ sp a = Some SpotifyClient.
Proof.
  unfold create_playlist. run_cases; cbn; intros; simplify_eq; auto.
Qed.

Lemma search_spotify_ok a w :
  ui_inv a -> on_prompt a = true ->
  let r := search_spotify a w in
  ui_inv (app r) /\ sp (app r) = sp a
  /\ (forall e, out r = Raise e -> may_escape (sp a) e).
Proof.
  intros (I1 & I2 & I3 & I4) Hp.
  unfold search_spotify, stop_preview_audio, ui_inv, on_prompt, may_escape in *.
  run_cases; cbn.
  all: repeat match goal with
       | H : sp ?x = _ |- _ => rewrite H in *
       end.
  all: repeat split; try discriminate; auto.
  all: try (intros; simplify_eq; auto; fail).
  all: try (intros; eexists; reflexivity).
  all: try (intros; congruence).
Qed.

Lemma show_file_prompt_ok a w :
  current_index a <= length (audio_files a) ->
  let r := show_file_prompt a w in
  ui_inv (app r) /\ sp (app r) = sp a
  /\ (forall e, out r = Raise e -> may_escape (sp a) e).
Proof.
  intros Hle. unfold show_file_prompt. unfold_prims.
  destruct (length (audio_files a) <=? current_index a) eqn:E; unfold_prims.
  - unfold ui_inv, on_prompt. cbn. repeat split; try discriminate; auto.
  - apply Nat.leb_gt in E.
    destruct (lookup_lt_is_Some_2 (audio_files a) (current_index a) E)
      as [path Hp].
    rewrite Hp. unfold_prims.
    destruct (get_file_metadata w path) as [[title artist] duration_str].
    unfold_prims.
    match goal with
    | |- context [search_spotify ?a' ?w'] =>
        destruct (search_spotify_ok a' w') as (Hi & Hs & He);
        [ unfold ui_inv, on_prompt; cbn; repeat split; try discriminate;
          eauto
        | reflexivity
        | destruct (search_spotify a' w') as [o a1 w1 t1] ]
    end.
    cbn in *. auto.
Qed.

Lemma go_to_next_file_ok a w :
  current_index a < length (audio_files a) ->
  let r := go_to_next_file a w in
  ui_inv (app r) /\ sp (app r) = sp a
  /\ (forall e, out r = Raise e -> may_escape (sp a) e).
Proof.
  intros Hlt. unfold go_to_next_file. unfold_prims.
  match goal with
  | |- context [stop_preview_audio ?a' ?w'] =>
      destruct (stop_preview_audio_fields a' w') as (Ho & Ha & _);
      destruct (stop_preview_audio a' w') as [o a1 w1 t1]
  end.
  cbn in *. subst o a1. unfold_prims.
  match goal with
  | |- context [show_file_prompt ?a' ?w'] =>
      destruct (show_file_prompt_ok a' w') as (Hi & Hs & He);
      [ cbn; lia
      | destruct (show_file_prompt a' w') as [o2 a2 w2 t2] ]
  end.
  cbn in *. auto.
Qed.

Lemma ui_inv_lookup a :
  ui_inv a -> on_prompt a = true ->
  exists path, audio_files a !! current_index a = Some path
               /\ current_index a < length (audio_files a).
Proof.
  intros (_ & I2 & _) Hp. destruct (I2 Hp) as (path & Hl & _).
  exists path. split; [exact Hl|]. now apply lookup_lt_Some in Hl.
Qed.

(** Applies what is known of [go_to_next_file] where the evaluation
    stopped at it. *)
Ltac next_file_ok :=
  match goal with
  | H : go_to_next_file ?a ?w = _ |- _ =>
      let F := fresh "F" in
      pose proof (go_to_next_file_ok a w) as F;
      rewrite H in F; cbn in F;
      destruct F as (? & ? & ?); [assumption|]; clear H
  end.

Lemma skip_file_ok a w :
  ui_inv a -> on_prompt a = true ->
  let r := skip_file a w in
  ui_inv (app r) /\ sp (app r) = sp a
  /\ (forall e, out r = Raise e -> may_escape (sp a) e).
Proof.
  intros Hi Hp. destruct (ui_inv_lookup a Hi Hp) as (path & Hl & Hlt).
  unfold skip_file. unfold_prims. rewrite Hl. unfold_prims.
  destruct (go_to_next_file _ w) as [o a1 w1 t1] eqn:Hg.
  next_file_ok. cbn in *. auto.
Qed.

Ltac creation_facts :=
  match goal with
  | H : create_playlist ?a ?w = _ |- _ =>
      let F := fresh "F" in
      let G := fresh "G" in
      pose proof (create_playlist_cases a w) as F;
      pose proof (create_playlist_raises a w) as G;
      rewrite H in F, G; cbn in F, G;
      destruct F as [(? & ? & _) | (? & ? & ? & ? & _)]; clear H; subst
  end.

Ltac ok_close :=
  cbn in *;
  split;
  [ match goal with H : ui_inv _ |- _ => exact H end
  | split;
    [ congruence
    | intros ? ?; simplify_eq; unfold may_escape in *;
      try match goal with
      | G : forall e, _ = Raise e -> _ /\ _ |- _ =>
          destruct (G _ eq_refl) as [? ?]; subst
      | G : forall e, _ = Raise e -> _ |- _ =>
          specialize (G _ eq_refl); cbn in G
      end;
      repeat match goal with
      | H : sp ?x = _ |- _ => rewrite H in *
      end;
      first [ tauto | split; [discriminate | intros; congruence] ] ] ].

Lemma add_to_playlist_ok a w :
  ui_inv a -> on_prompt a = true ->
  existsb is_add_button (results_frame a) = true ->
  let r := add_to_playlist a w in
  ui_inv (app r) /\ sp (app r) = sp a
  /\ (forall e, out r = Raise e -> may_escape (sp a) e).
Proof.
  intros Hi Hp Hb. destruct (ui_inv_lookup a Hi Hp) as (path & Hl & Hlt).
  pose proof Hi as (_ & _ & _ & I4). destruct (I4 Hb) as [[u Hu] Hsp].
  unfold add_to_playlist.
  run_cases; try creation_facts; cbn in *; simplify_eq;
    try next_file_ok.
  all: ok_close.
Qed.

Lemma add_track_by_url_ok a w :
  ui_inv a -> on_prompt a = true ->
  let r := add_track_by_url a w in
  ui_inv (app r) /\ sp (app r) = sp a
  /\ (forall e, out r = Raise e -> may_escape (sp a) e).
Proof.
  intros Hi Hp. destruct (ui_inv_lookup a Hi Hp) as (path & Hl & Hlt).
  unfold add_track_by_url.
  run_cases; try creation_facts; cbn in *; simplify_eq;
    try next_file_ok.
  all: ok_close.
Qed.

Lemma select_directory_ok directory name a w :
  ui_inv a ->
  let r := select_directory directory name a w in
  ui_inv (app r) /\ sp (app r) = sp a
  /\ (forall e, out r = Raise e -> may_escape (sp a) e).
Proof.
  intros Hi. unfold select_directory.
  destruct (PyStr.nonempty directory); unfold_prims.
  - match goal with
    | |- context [show_file_prompt ?a' ?w'] =>
        destruct (show_file_prompt_ok a' w') as (H1 & H2 & H3);
        [ cbn; lia
        | destruct (show_file_prompt a' w') as [o a1 w1 t1] ]
    end.
    cbn in *. auto.
  - split; [exact Hi|]. split; [reflexivity | discriminate].
Qed.

Lemma play_spotify_preview_fields url a w :
  exists path, app (play_spotify_preview url a w)
               = set_preview_temp_path path a.
Proof.
  unfold play_spotify_preview. unfold_prims.
  destruct (stop_preview_audio_fields a w) as (Ho & Ha & _).
  destruct (stop_preview_audio a w) as [o a1 w1 t1]. cbn in *. subst o a1.
  run_cases; eauto.
Qed.

Lemma handler_ok act a w :
  ui_inv a -> enabled a act = true ->
  let r := handler act a w in
  ui_inv (app r) /\ sp (app r) = sp a
  /\ (forall e, out r = Raise e -> may_escape (sp a) e).
Proof.
  intros Hi He. unfold enabled in He.
  destruct act; cbn [handler].
  - now apply select_directory_ok.
  - cbn. split; [exact Hi|]. split; [reflexivity | discriminate].
  - cbn. split; [exact Hi|]. split; [reflexivity | discriminate].
  - cbn. split; [|split; [reflexivity | discriminate]].
    destruct Hi as (I1 & I2 & I3 & I4). repeat split; auto.
    + cbn. eauto.
    + now apply I4.
  - now apply search_spotify_ok.
  - now apply add_track_by_url_ok.
  - apply andb_prop in He as [Hp Hb]. now apply add_to_playlist_ok.
  - now apply skip_file_ok.
  - destruct (play_local_audio_fields a w) as (Ho & Ha).
    cbn zeta. rewrite Ho, Ha.
    split; [exact Hi|]. split; [reflexivity | discriminate].
  - cbn. split; [exact Hi|]. split; [reflexivity | discriminate].
  - pose proof (play_spotify_preview_returns (Some url) a w) as Ho.
    destruct (play_spotify_preview_fields (Some url) a w) as [p Hf].
    cbn zeta. rewrite Ho, Hf.
    split; [exact Hi|]. split; [reflexivity | discriminate].
  - destruct (stop_preview_audio_fields a w) as (Ho & Ha & _).
    cbn zeta. rewrite Ho, Ha.
    split; [exact Hi|]. split; [reflexivity | discriminate].
Qed.

Lemma step_ok act a w :
  ui_inv a ->
  let r := step act a w in
  ui_inv (app r) /\ sp (app r) = sp a
  /\ Forall (may_escape (sp a)) (escaped (trace r)).
Proof.
  intros Hi. unfold step. unfold_prims.
  destruct (enabled a act) eqn:E;
    [|cbn; split; [exact Hi|]; split; [reflexivity | constructor]].
  destruct (handler_ok act a w Hi E) as (H1 & H2 & H3).
  pose proof (hushed_handler act a w) as Hh.
  unfold callback, try_except.
  destruct (handler act a w) as [[x|e] a1 w1 t1]; cbn in *.
  - rewrite Hh. split; [exact H1|]. split; [exact H2 | constructor].
  - rewrite escaped_app, Hh. split; [exact H1|]. split; [exact H2|].
    constructor; [now apply H3 | constructor].
Qed.

Lemma run_ok acts a w :
  ui_inv a ->
  let r := run acts a w in
  ui_inv (app r) /\ sp (app r) = sp a
  /\ Forall (may_escape (sp a)) (escaped (trace r)).
Proof.
  revert a w. induction acts as [|act rest IH]; intros a w Hi.
  - cbn. split; [exact Hi|]. split; [reflexivity | constructor].
  - cbn zeta. destruct (run_cons act rest a w) as (-> & _ & ->).
    destruct (step_ok act a w Hi) as (H1 & H2 & H3).
    destruct (IH (app (step act a w)) (world (step act a w)) H1)
      as (J1 & J2 & J3).
    cbn zeta in *. rewrite H2 in J2, J3.
    rewrite escaped_app. split; [exact J1|]. split; [congruence|].
    now apply Forall_app.
Qed.

Lemma ui_inv_init client : ui_inv (init client).
Proof. unfold ui_inv. cbn. repeat split; auto; discriminate. Qed.

(** X5. In every state the user can reach, the cursor is within the file
    list, a prompt is on the screen only for the file at the cursor,
    results are shown only on a prompt, and the add button is there only
    with a selection and a client. *)
Theorem window_invariant acts client w :
  ui_inv (app (run acts (init client) w)).
Proof. apply run_ok, ui_inv_init. Qed.

(** X6. Whatever the user does and whatever fails outside, Tk never
    reports an [IndexError]: the two list indexings of the program,
    in [show_file_prompt] and in [skip_file], are in range whenever
    they run.  Without a client, every exception Tk reports is the
    [AttributeError] of calling a method of [None]. *)
Theorem reported_exceptions acts client w :
  let t := escaped (trace (run acts (init client) w)) in
  Forall (fun e => e <> IndexError) t
  /\ (client = None -> Forall (eq AttributeError) t).
Proof.
  pose proof (proj2 (proj2 (run_ok acts (init client) w (ui_inv_init client))))
    as H.
  cbn in H. split.
  - eapply Forall_impl; [exact H|]. now intros e [He _].
  - intros Hc. eapply Forall_impl; [exact H|].
    intros e [_ He]. symmetry. now apply He.
Qed.

(** ** The end of the list *)

Lemma show_file_prompt_done a w :
  length (audio_files a) <= current_index a ->
  show_file_prompt a w
  = mkResult (Ret tt) (set_main_frame InitialUI (set_results_frame [] a)) w
      [MessageBox ShowInfo (MsgDone (skipped_songs a))].
Proof.
  intros H. unfold show_file_prompt. unfold_prims.
  apply Nat.leb_le in H. rewrite H. reflexivity.
Qed.

Lemma go_to_next_file_last a w :
  S (current_index a) = length (audio_files a) ->
  let r := go_to_next_file a w in
  out r = Ret tt /\ main_frame (app r) = InitialUI
  /\ results_frame (app r) = []
  /\ current_index (app r) = length (audio_files (app r))
  /\ skipped_songs (app r) = skipped_songs a
  /\ last (trace r) = Some (MessageBox ShowInfo (MsgDone (skipped_songs a)))
  /\ existsb is_search (trace r) = false.
Proof.
  intros Hlast. unfold go_to_next_file. unfold_prims.
  match goal with
  | |- context [stop_preview_audio ?a' ?w'] =>
      destruct (stop_preview_audio_fields a' w') as (Ho & Ha & _);
      pose proof (stop_preview_audio_shape a' w') as Hs;
      destruct (stop_preview_audio a' w') as [o a1 w1 t1]
  end.
  cbn in *. subst o a1. unfold_prims.
  rewrite show_file_prompt_done by (cbn; lia). cbn.
  repeat split; try (cbn; lia).
  - rewrite app_comm_cons, last_snoc. reflexivity.
  - destruct Hs as [->|(p & ok & ->)]; reflexivity.
Qed.

(** X7. Skipping the last file ends the session: the summary box lists
    the skipped names including this one, no search is made, and the
    welcome screen is back. *)
Theorem skip_last_file a w path :
  audio_files a !! current_index a = Some path ->
  S (current_index a) = length (audio_files a) ->
  let r := skip_file a w in
  out r = Ret tt /\ main_frame (app r) = InitialUI
  /\ results_frame (app r) = []
  /\ current_index (app r) = length (audio_files (app r))
  /\ last (trace r)
     = Some (MessageBox ShowInfo
               (MsgDone (skipped_songs a ++ [Path.basename path])))
  /\ existsb is_search (trace r) = false.
Proof.
  intros Hp Hlast. unfold skip_file. unfold_prims. rewrite Hp. unfold_prims.
  match goal with
  | |- context [go_to_next_file ?a' ?w'] =>
      destruct (go_to_next_file_last a' w') as (H1 & H2 & H3 & H4 & H5 & H6 & H7);
      [exact Hlast | destruct (go_to_next_file a' w') as [o a1 w1 t1]]
  end.
  cbn in *. auto 10.
Qed.

Lemma skip_last_file_witness :
  let r0 := demo_start [] in
  let s := after_ops [OpSkip; OpSkip] (app r0) (world r0) in
  audio_files s.1 !! current_index s.1 = Some "/music/live/C.flac"
  /\ S (current_index s.1) = length (audio_files s.1)
  /\ last (trace (skip_file s.1 s.2))
     = Some (MessageBox ShowInfo (MsgDone ["a.mp3"; "b.mp3"; "C.flac"])).
Proof.
  intros r0 s.
  assert (H1 : audio_files s.1 !! current_index s.1
               = Some "/music/live/C.flac") by reflexivity.
  assert (H2 : S (current_index s.1) = length (audio_files s.1))
    by reflexivity.
  split; [exact H1|]. split; [exact H2|].
  exact (proj1 (proj2 (proj2 (proj2 (proj2
           (skip_last_file s.1 s.2 _ H1 H2)))))).
Defined.

(** ** Selecting a directory *)

(** X8. A cancelled directory dialog does nothing.  Otherwise the file
    list, the playlist name and the cursor (0) are replaced, while the
    skipped list and the playlist id of an earlier walk-through are
    kept, and no catalog call other than the first search is made. *)
Theorem select_directory_effect directory name a w :
  let r := select_directory directory name a w in
  (directory = EmptyString -> app r = a /\ world r = w /\ trace r = [])
  /\ (directory <> EmptyString ->
      playlist_name (app r) = name
      /\ audio_files (app r)
         = candidate_files directory (dir_tree w directory)
      /\ current_index (app r) = 0
      /\ skipped_songs (app r) = skipped_songs a
      /\ playlist_id (app r) = playlist_id a
      /\ playlists (world r) = playlists w
      /\ quiet (trace r) = true).
Proof.
  unfold select_directory. split.
  - intros ->. cbn. auto.
  - intros Hd. destruct directory as [|c d]; [congruence|].
    cbn [PyStr.nonempty]. unfold_prims.
    match goal with
    | |- context [show_file_prompt ?a' ?w'] =>
        destruct (passive_show_file_prompt a' w')
          as ((_ & H2 & H3 & H4 & H5 & H6) & H7 & H8);
        destruct (show_file_prompt a' w') as [o a1 w1 t1]
    end.
    cbn in *. auto 10.
Qed.

Lemma select_directory_effect_witness :
  let s := after_ops [OpAddSelected None; OpSkip; OpSkip]
             (app (demo_start [])) (world (demo_start [])) in
  let r := select_directory "/other" (Some "second") s.1 s.2 in
  "/other" <> EmptyString
  /\ skipped_songs (app r) = ["b.mp3"; "C.flac"]
  /\ playlist_id (app r) = Some 0
  /\ current_index (app r) = 0.
Proof.
  intros s r.
  assert (H : "/other" <> EmptyString) by discriminate.
  destruct (proj2 (select_directory_effect "/other" (Some "second") s.1 s.2)
              H) as (_ & _ & H3 & H4 & H5 & _).
  split; [exact H|]. split; [exact H4|]. split; [exact H5 | exact H3].
Defined.

(** X9. Selecting a directory without candidate files shows the summary
    box at once: no prompt, no search, the welcome screen stays. *)
Theorem select_empty_directory directory name a w :
  directory <> EmptyString ->
  candidate_files directory (dir_tree w directory) = [] ->
  let r := select_directory directory name a w in
  out r = Ret tt /\ main_frame (app r) = InitialUI
  /\ trace r = [MessageBox ShowInfo (MsgDone (skipped_songs a))]
  /\ world r = w.
Proof.
  intros Hd Hc. unfold select_directory.
  destruct directory as [|c d]; [congruence|].
  cbn [PyStr.nonempty]. unfold_prims. rewrite Hc.
  rewrite show_file_prompt_done by (cbn; lia). cbn. auto.
Qed.

Lemma select_empty_directory_witness :
  let w := mkWorld "me" [] (fun _ => []) (fun _ => None)
             (fun _ => Node ["cover.jpg"] [("art", Node ["back.PNG"] [])])
             (fun _ => MutagenFalsy) [] 0%Z None false [] in
  let r := select_directory "/pictures" (Some "mix") (init None) w in
  candidate_files "/pictures" (dir_tree w "/pictures") = []
  /\ trace r = [MessageBox ShowInfo (MsgDone [])]
  /\ main_frame (app r) = InitialUI.
Proof.
  intros w r.
  assert (H1 : "/pictures" <> EmptyString) by discriminate.
  assert (H2 : candidate_files "/pictures" (dir_tree w "/pictures") = [])
    by reflexivity.
  destruct (select_empty_directory "/pictures" (Some "mix") (init None) w
              H1 H2) as (_ & P2 & P3 & _).
  split; [exact H2|]. split; [exact P3 | exact P2].
Defined.

Arguments appends : simpl never.

Lemma appends_app t1 t2 : appends (t1 ++ t2) = appends t1 ++ appends t2.
Proof. apply omap_app. Qed.

Lemma appends_cons e t :
  appends (e :: t)
  = match appended e with Some x => x :: appends t | None => appends t end.
Proof. reflexivity. Qed.

Lemma appends_nil : appends [] = [].
Proof. reflexivity. Qed.

Lemma quiet_appends t : quiet t = true -> appends t = [].
Proof.
  unfold quiet, appends. induction t as [|e t IH]; [reflexivity|].
  cbn. intros [He Ht]%andb_prop. rewrite (IH Ht).
  destruct e as [| | |[?|] ? [|]| | | | | | | | | | |]; cbn in *;
    congruence.
Qed.

Ltac read_appends :=
  repeat progress
    (rewrite ?appends_app, ?appends_cons, ?appends_nil;
     repeat match goal with
     | H : quiet ?t = true |- context [appends ?t] =>
         rewrite (quiet_appends t H)
     end;
     cbn [appended]).

(** ** Creating the playlist *)

(** X10. [create_playlist] makes no call at all without a playlist name
    or without a client.  When it raises, whatever the exception, no
    field has changed: no id is stored, so the next add calls it again.
    When it returns with a name and a client, it has created one new,
    empty, public playlist with that name, owned by the current user,
    and has stored its id. *)
Theorem create_playlist_effect a w :
  let r := create_playlist a w in
  (PyStr.truthy (playlist_name a) = false \/ sp a = None ->
   r = mkResult (Ret tt) a w [])
  /\ (forall e, out r = Raise e -> app r = a)
  /\ (PyStr.truthy (playlist_name a) = true -> sp a <> None ->
      out r = Ret tt ->
      app r = set_playlist_id (Some (length (playlists w))) a
      /\ playlists (world r)
         = playlists w
           ++ [mkPlaylist (user_id w) (str_of (playlist_name a)) true []]
      /\ creations (trace r) = [length (playlists w)]).
Proof.
  unfold create_playlist.
  run_cases; cbn; (split; [|split]); try (intros [?|?]); intros;
    simplify_eq; auto.
Qed.

(** ** Adding the selected track *)

Lemma playlist_items_alter w w' pid items :
  playlists w' = alter (add_items items) pid (playlists w) ->
  pid < length (playlists w) ->
  playlist_items w' pid = playlist_items w pid ++ items
  /\ (forall q, q <> pid -> playlist_items w' q = playlist_items w q)
  /\ length (playlists w') = length (playlists w).
Proof.
  intros E Hlt. unfold playlist_items. rewrite E.
  destruct (lookup_lt_is_Some_2 _ _ Hlt) as [p Hp].
  split; [|split].
  - rewrite list_lookup_alter, Hp.
    destruct (decide (pid = pid)); [reflexivity | congruence].
  - intros q Hq. rewrite list_lookup_alter.
    destruct (decide (pid = q)); [congruence | reflexivity].
  - apply length_alter.
Qed.

Lemma alter_snoc {X} (f : X -> X) (l : list X) x :
  alter f (length l) (l ++ [x]) = l ++ [f x].
Proof. induction l as [|y l IH]; cbn; [reflexivity | now rewrite IH]. Qed.

(** X11. With a playlist already created, a client, a non-empty
    selection and an append that the service accepts, [add_to_playlist]
    appends exactly the selected URI at the end of that playlist,
    leaves every other playlist alone, creates nothing, and moves the
    cursor by one without touching the skipped list. *)
Theorem add_to_existing_playlist a w pid u :
  sp a = Some SpotifyClient ->
  playlist_id a = Some pid -> pid < length (playlists w) ->
  track_var a = Some u -> u <> EmptyString ->
  hd_error (faults w) <> Some true ->
  let r := add_to_playlist a w in
  playlist_items (world r) pid = playlist_items w pid ++ [u]
  /\ (forall q, q <> pid -> playlist_items (world r) q = playlist_items w q)
  /\ length (playlists (world r)) = length (playlists w)
  /\ appends (trace r) = [(pid, [u])] /\ creations (trace r) = []
  /\ current_index (app r) = S (current_index a)
  /\ playlist_id (app r) = Some pid
  /\ skipped_songs (app r) = skipped_songs a.
Proof.
  intros Hsp Hid Hlt Hu Hne Hf. unfold add_to_playlist. unfold_prims.
  rewrite Hid. unfold_prims. rewrite Hu. unfold_prims.
  destruct u as [|c u]; [congruence|]. cbn [PyStr.nonempty]. unfold_prims.
  rewrite Hsp, Hid. unfold_prims.
  assert (Hb : bool_decide (pid < length (playlists w)) = true)
    by now apply bool_decide_eq_true.
  destruct (faults w) as [|[|] rest] eqn:Ef; [|cbn in Hf; congruence|];
    unfold_prims; rewrite Hb; unfold_prims.
  all: match goal with
       | |- context [go_to_next_file ?a' ?w'] =>
           destruct (go_to_next_file_advances a' w')
             as ((G1 & G2 & G3 & G4 & G5 & G6) & G7 & G8);
           destruct (go_to_next_file a' w') as [o a1 w1 t1]
       end.
  all: cbn in *.
  all: match type of G7 with
       | _ = alter _ _ (playlists ?w0) =>
           destruct (playlist_items_alter w0 w1 pid _ G7 Hlt) as (P1 & P2 & P3)
       end.
  all: rewrite appends_cons, creations_cons, (quiet_appends _ G8),
         (quiet_creations _ G8); cbn.
  all: repeat split; auto; congruence.
Qed.

Lemma add_to_existing_playlist_witness :
  let s := after_ops [OpAddSelected None] (app (demo_start []))
             (world (demo_start [])) in
  let a := set_track_var (Some "spotify:track:2") s.1 in
  let r := add_to_playlist a s.2 in
  playlist_id a = Some 0
  /\ playlist_items s.2 0 = ["spotify:track:1"]
  /\ playlist_items (world r) 0 = ["spotify:track:1"; "spotify:track:2"].
Proof.
  intros s a r.
  assert (H1 : sp a = Some SpotifyClient) by reflexivity.
  assert (H2 : playlist_id a = Some 0) by reflexivity.
  assert (H3 : 0 < length (playlists s.2)) by (vm_compute; lia).
  assert (H4 : track_var a = Some "spotify:track:2") by reflexivity.
  assert (H5 : "spotify:track:2" <> EmptyString) by discriminate.
  assert (H6 : hd_error (faults s.2) <> Some true)
    by (vm_compute; discriminate).
  assert (H7 : playlist_items s.2 0 = ["spotify:track:1"]) by reflexivity.
  split; [exact H2|]. split; [exact H7|].
  pose proof (proj1 (add_to_existing_playlist a s.2 0 _ H1 H2 H3 H4 H5 H6))
    as P.
  rewrite H7 in P. exact P.
Defined.

(** X12. The first add of a session, when nothing fails: the playlist
    is created with the name the user gave, public and owned by the
    current user, the selected URI is its only item, its id is stored,
    and the cursor moves by one. *)
Theorem first_add_creates_playlist a w name u :
  sp a = Some SpotifyClient ->
  playlist_id a = None -> playlist_name a = Some name ->
  name <> EmptyString ->
  track_var a = Some u -> u <> EmptyString ->
  faults w = [] ->
  let r := add_to_playlist a w in
  playlists (world r) = playlists w ++ [mkPlaylist (user_id w) name true [u]]
  /\ playlist_id (app r) = Some (length (playlists w))
  /\ creations (trace r) = [length (playlists w)]
  /\ appends (trace r) = [(length (playlists w), [u])]
  /\ current_index (app r) = S (current_index a).
Proof.
  intros Hsp Hid Hn Hne Hu Hue Hf.
  destruct name as [|c0 name]; [congruence|].
  destruct u as [|c u]; [congruence|].
  assert (Hb : bool_decide (length (playlists w)
                            < length (playlists w ++ [mkPlaylist (user_id w) (String c0 name) true []])) = true)
    by (apply bool_decide_eq_true; rewrite length_app; cbn; lia).
  unfold add_to_playlist, create_playlist. unfold_prims.
  rewrite Hid, Hn. unfold_prims.
  repeat (first [rewrite Hsp | rewrite Hf | rewrite Hu | rewrite Hb];
          unfold_prims).
  match goal with
  | |- context [go_to_next_file ?a' ?w'] =>
      destruct (go_to_next_file_advances a' w')
        as ((G1 & G2 & G3 & G4 & G5 & G6) & G7 & G8);
      destruct (go_to_next_file a' w') as [o a1 w1 t1]
  end.
  cbn in *.
  rewrite !appends_cons, !creations_cons, (quiet_appends _ G8),
    (quiet_creations _ G8); cbn.
  repeat split; auto.
  rewrite G7, alter_snoc. reflexivity.
Qed.

Lemma first_add_creates_playlist_witness :
  let r0 := demo_start [] in
  let r := add_to_playlist (app r0) (world r0) in
  playlists (world r0) = []
  /\ playlists (world r) = [mkPlaylist "me" "mix" true ["spotify:track:1"]]
  /\ playlist_id (app r) = Some 0.
Proof.
  intros r0 r.
  assert (H1 : sp (app r0) = Some SpotifyClient) by reflexivity.
  assert (H2 : playlist_id (app r0) = None) by reflexivity.
  assert (H3 : playlist_name (app r0) = Some "mix") by reflexivity.
  assert (H4 : "mix" <> EmptyString) by discriminate.
  assert (H5 : track_var (app r0) = Some "spotify:track:1") by reflexivity.
  assert (H6 : "spotify:track:1" <> EmptyString) by discriminate.
  assert (H7 : faults (world r0) = []) by reflexivity.
  assert (H8 : playlists (world r0) = []) by reflexivity.
  split; [exact H8|].
  destruct (first_add_creates_playlist (app r0) (world r0) _ _
              H1 H2 H3 H4 H5 H6 H7) as (P1 & P2 & _).
  rewrite H8 in P1, P2. split; [exact P1 | exact P2].
Defined.

(** ** Adding by direct reference *)

Lemma playlist_items_added_both w w' l0 pid items :
  playlists w' = alter (add_items items) pid l0 ->
  negb (bool_decide (pid < length l0)) = false ->
  l0 = playlists w \/ (exists p, l0 = playlists w ++ [p] /\ pl_items p = []) ->
  playlist_items w' pid = playlist_items w pid ++ items
  /\ (forall q, q <> pid -> playlist_items w' q = playlist_items w q).
Proof.
  intros E Hb Hl.
  apply negb_false_iff, bool_decide_eq_true in Hb.
  assert (Hm : forall q, playlist_items (set_playlists l0 w) q
                         = playlist_items w q).
  { destruct Hl as [->|(p & -> & Hp)].
    - now apply playlist_items_same.
    - now apply (playlist_items_new w _ p). }
  destruct (playlist_items_alter (set_playlists l0 w) w' pid items E Hb)
    as (P1 & P2 & _).
  split.
  - now rewrite P1, Hm.
  - intros q Hq. now rewrite P2, Hm.
Qed.

Lemma playlist_items_added w w' l0 pid items :
  playlists w' = alter (add_items items) pid l0 ->
  negb (bool_decide (pid < length l0)) = false ->
  l0 = playlists w \/ (exists p, l0 = playlists w ++ [p] /\ pl_items p = []) ->
  playlist_items w' pid = playlist_items w pid ++ items.
Proof.
  intros E Hb Hl. exact (proj1 (playlist_items_added_both _ _ _ _ _ E Hb Hl)).
Qed.

Lemma playlist_items_others w w' l0 pid items :
  playlists w' = alter (add_items items) pid l0 ->
  negb (bool_decide (pid < length l0)) = false ->
  l0 = playlists w \/ (exists p, l0 = playlists w ++ [p] /\ pl_items p = []) ->
  forall q, q <> pid -> playlist_items w' q = playlist_items w q.
Proof.
  intros E Hb Hl. exact (proj2 (playlist_items_added_both _ _ _ _ _ E Hb Hl)).
Qed.

(** X13. [add_track_by_url] ends in one of two ways.  Either nothing
    was appended: then the cursor, the skipped list and the items of
    every playlist are as before, and if the call returned an error box
    was shown.  Or exactly one item was appended: the URI of the object
    the lookup of the stripped reference returned, which is a track; it
    went to the end of the stored playlist, the other playlists are as
    before, the user was told, and the cursor moved by one. *)
Theorem add_track_by_url_outcomes a w :
  let r := add_track_by_url a w in
  (appends (trace r) = []
   /\ current_index (app r) = current_index a
   /\ skipped_songs (app r) = skipped_songs a
   /\ (forall q, playlist_items (world r) q = playlist_items w q)
   /\ (out r = Ret tt -> existsb is_error_box (trace r) = true))
  \/ (exists pid info,
        appends (trace r) = [(pid, [tr_uri info])]
        /\ In (TrackLookup (PyStr.strip (url_var a)) (Some (Some info)))
             (trace r)
        /\ tr_type info = "track"
        /\ playlist_id (app r) = Some pid
        /\ current_index (app r) = S (current_index a)
        /\ skipped_songs (app r) = skipped_songs a
        /\ In (MessageBox ShowInfo (MsgAddedByUrl (tr_name info))) (trace r)
        /\ playlist_items (world r) pid
           = playlist_items w pid ++ [tr_uri info]
        /\ (forall q, q <> pid ->
            playlist_items (world r) q = playlist_items w q)).
Proof.
  unfold add_track_by_url.
  run_cases; summaries; read_appends; rewrite ?existsb_error_app; cbn.
  all: try (left; split; [reflexivity|]; repeat split;
            try (eapply playlist_items_new; eauto; reflexivity);
            try (apply playlist_items_same; cbn; congruence);
            try reflexivity; try discriminate; fail).
  all: right; do 2 eexists; (split; [reflexivity|]).
  all: repeat split; auto 10; try congruence.
  all: try (apply String.eqb_eq; assumption).
  all: repeat match goal with
       | H : _ || _ = false |- _ => apply orb_false_elim in H as [? ?]
       end.
  all: try (eapply playlist_items_added; [eassumption | eassumption | eauto];
            fail).
  all: try (eapply playlist_items_others; [eassumption | eassumption | eauto];
            fail).
Qed.

(** X14. Once the playlist exists, [add_track_by_url] never raises and
    never creates a playlist: every exception of the lookup, of the
    append and of the next prompt ends in an error box.  Without an
    error box one item was appended to the stored playlist; without a
    client nothing is appended and an error box is shown. *)
Theorem add_track_by_url_never_raises a w pid :
  playlist_id a = Some pid ->
  let r := add_track_by_url a w in
  out r = Ret tt
  /\ creations (trace r) = []
  /\ playlist_id (app r) = Some pid
  /\ (existsb is_error_box (trace r) = false ->
      exists items, appends (trace r) = [(pid, items)])
  /\ (sp a = None ->
      appends (trace r) = [] /\ existsb is_error_box (trace r) = true).
Proof.
  intros Hid. unfold add_track_by_url. unfold_prims. rewrite Hid.
  run_cases; summaries; read_appends; read_trace;
    rewrite ?existsb_error_app; cbn.
  all: repeat match goal with x : unit |- _ => destruct x end.
  all: rewrite ?orb_true_r.
  all: simplify_eq.
  all: repeat split; try discriminate; try congruence; eauto.
Qed.

Lemma add_track_by_url_never_raises_witness :
  let s := after_ops [OpAddSelected None] (app (demo_start []))
             (world (demo_start [])) in
  let a := set_url_var "spotify:track:9" s.1 in
  let r := add_track_by_url a (set_faults [false; false; true] s.2) in
  playlist_id a = Some 0
  /\ out r = Ret tt
  /\ appends (trace r) = [(0, ["spotify:track:9"])]
  /\ existsb is_error_box (trace r) = true.
Proof.
  intros s a r.
  assert (H : playlist_id a = Some 0) by reflexivity.
  split; [exact H|].
  split; [exact (proj1 (add_track_by_url_never_raises a _ 0 H))|].
  split; reflexivity.
Defined.

(** ** Without a playlist name *)

Lemma create_playlist_noop a w :
  PyStr.truthy (playlist_name a) = false ->
  create_playlist a w = mkResult (Ret tt) a w [].
Proof.
  unfold create_playlist. unfold_prims.
  destruct (playlist_name a) as [name|]; cbn; [|reflexivity].
  intros ->. now destruct (sp a) as [[]|].
Qed.

(** X15. When the user gave no playlist name (or an empty one), no add
    can succeed: nothing is created or appended and the cursor stays.
    The add by reference says so in an error box; the add of a
    selected track raises -- a [TypeError] of the client, or an
    [AttributeError] without a client -- and shows no message box. *)
Theorem add_without_playlist_name a w :
  playlist_id a = None -> PyStr.truthy (playlist_name a) = false ->
  (let r := add_track_by_url a w in
   out r = Ret tt /\ existsb is_error_box (trace r) = true
   /\ creations (trace r) = [] /\ appends (trace r) = []
   /\ current_index (app r) = current_index a
   /\ playlists (world r) = playlists w)
  /\ (forall u, track_var a = Some u -> u <> EmptyString ->
      let r := add_to_playlist a w in
      (out r = Raise TypeError \/ out r = Raise AttributeError)
      /\ escaped (trace r) = []
      /\ existsb is_message_box (trace r) = false
      /\ creations (trace r) = [] /\ appends (trace r) = []
      /\ current_index (app r) = current_index a
      /\ playlists (world r) = playlists w).
Proof.
  intros Hid Hn. split.
  - unfold add_track_by_url. unfold_prims. rewrite Hid. unfold_prims.
    destruct (negb (PyStr.nonempty (PyStr.strip (url_var a))));
      unfold_prims; [repeat split|].
    rewrite (create_playlist_noop a w Hn).
    run_cases; repeat split; try congruence.
  - intros u Hu Hne. destruct u as [|c u]; [congruence|].
    unfold add_to_playlist. unfold_prims. rewrite Hid. unfold_prims.
    rewrite (create_playlist_noop a w Hn). unfold_prims.
    rewrite Hu. unfold_prims. rewrite Hid.
    run_cases; repeat split; auto.
Qed.

Lemma add_without_playlist_name_witness :
  let r0 := select_directory "/music" None (init (Some SpotifyClient))
              (demo_world []) in
  let a := set_url_var "spotify:track:9" (app r0) in
  playlist_id a = None /\ PyStr.truthy (playlist_name a) = false
  /\ track_var a = Some "spotify:track:1"
  /\ existsb is_error_box (trace (add_track_by_url a (world r0))) = true
  /\ out (add_to_playlist a (world r0)) = Raise TypeError.
Proof.
  intros r0 a.
  assert (H1 : playlist_id a = None) by reflexivity.
  assert (H2 : PyStr.truthy (playlist_name a) = false) by reflexivity.
  assert (H3 : track_var a = Some "spotify:track:1") by reflexivity.
  split; [exact H1|]. split; [exact H2|]. split; [exact H3|].
  split.
  - exact (proj1 (proj2 (proj1 (add_without_playlist_name a (world r0) H1 H2)))).
  - reflexivity.
Defined.

(** ** Moving on stops everything *)

Lemma show_file_prompt_calm a w :
  preview_temp_path a = None -> music_busy w = false ->
  let r := show_file_prompt a w in
  preview_temp_path (app r) = None /\ music_busy (world r) = false
  /\ disk (world r) = disk w
  /\ existsb is_temp_file (trace r) = false.
Proof.
  intros Hp Hb.
  unfold show_file_prompt, search_spotify, stop_preview_audio.
  run_cases; cbn in *; repeat split; congruence.
Qed.

(** X16. After [go_to_next_file], however it ends, nothing plays and
    no preview is recorded; the call makes no temporary file, and the
    only file it can remove is the preview file recorded before. *)
Theorem go_to_next_file_silence a w :
  let r := go_to_next_file a w in
  preview_temp_path (app r) = None /\ music_busy (world r) = false
  /\ existsb is_temp_file (trace r) = false
  /\ (forall q, q ∈ disk (world r) -> q ∈ disk w)
  /\ (forall q, q ∈ disk w -> preview_temp_path a <> Some q ->
      q ∈ disk (world r)).
Proof.
  unfold go_to_next_file. unfold_prims.
  match goal with
  | |- context [stop_preview_audio ?a' ?w'] =>
      destruct (stop_preview_audio_fields a' w')
        as (Ho & Ha & Hb & Hd1 & Hd2);
      pose proof (stop_preview_audio_shape a' w') as Hs;
      destruct (stop_preview_audio a' w') as [o a1 w1 t1]
  end.
  cbn in *. subst o a1. unfold_prims.
  match goal with
  | |- context [show_file_prompt ?a' ?w'] =>
      destruct (show_file_prompt_calm a' w') as (C1 & C2 & C3 & C4);
      [reflexivity | exact Hb
      | destruct (show_file_prompt a' w') as [o2 a2 w2 t2] ]
  end.
  cbn in *. rewrite C3, existsb_app, C4, orb_false_r.
  repeat split; auto.
  destruct Hs as [->|(p & ok & ->)]; reflexivity.
Qed.

(** ** Only preview files are ever removed *)

Lemma removes_own_app own t1 t2 :
  removes_own own (t1 ++ t2)
  = removes_own own t1 && removes_own (owned_after own t1) t2.
Proof.
  revert own. induction t1 as [|e t1 IH]; intros own; [reflexivity|].
  destruct e; cbn; rewrite ?IH, ?andb_assoc; reflexivity.
Qed.

Lemma owned_after_app own t1 t2 :
  owned_after own (t1 ++ t2) = owned_after (owned_after own t1) t2.
Proof.
  revert own. induction t1 as [|e t1 IH]; intros own; [reflexivity|].
  destruct e; cbn; now rewrite ?IH.
Qed.

Lemma owned_after_mono own t p : p ∈ own -> p ∈ owned_after own t.
Proof.
  revert own. induction t as [|e t IH]; intros own H; [exact H|].
  destruct e; cbn; apply IH; try exact H. now right.
Qed.

Section Tidy.

Context {A B : Type}.

Lemma tidy_ret (x : A) : tidy (ret x).
Proof. intros own a w H. split; [reflexivity | exact H]. Qed.

Lemma tidy_raise e : tidy (@raise A e).
Proof. intros own a w H. split; [reflexivity | exact H]. Qed.

Lemma tidy_bind (m : M A) (f : A -> M B) :
  tidy m -> (forall x, tidy (f x)) -> tidy (bind m f).
Proof.
  intros Hm Hf own a w H. unfold bind. specialize (Hm own a w H).
  destruct (m a w) as [[x|e] a1 w1 t1]; cbn in *; [|exact Hm].
  destruct Hm as [R1 P1].
  specialize (Hf x (owned_after own t1) a1 w1 P1).
  destruct (f x a1 w1) as [o a2 w2 t2]; cbn in *.
  rewrite removes_own_app, owned_after_app, R1. exact Hf.
Qed.

Lemma tidy_try (m : M A) (h : exn -> M A) :
  tidy m -> (forall e, tidy (h e)) -> tidy (try_except m h).
Proof.
  intros Hm Hh own a w H. unfold try_except. specialize (Hm own a w H).
  destruct (m a w) as [[x|e] a1 w1 t1]; cbn in *; [exact Hm|].
  destruct Hm as [R1 P1].
  specialize (Hh e (owned_after own t1) a1 w1 P1).
  destruct (h e a1 w1) as [o a2 w2 t2]; cbn in *.
  rewrite removes_own_app, owned_after_app, R1. exact Hh.
Qed.

End Tidy.

Lemma tidy_self : tidy self.
Proof. intros own a w H. split; [reflexivity | exact H]. Qed.

Lemma tidy_outside : tidy outside.
Proof. intros own a w H. split; [reflexivity | exact H]. Qed.

Lemma tidy_fault : tidy fault.
Proof.
  intros own a w H. unfold fault.
  destruct (faults w); (split; [reflexivity | exact H]).
Qed.

Lemma tidy_effect g : tidy (effect g).
Proof. intros own a w H. split; [reflexivity | exact H]. Qed.

Lemma tidy_assign f :
  (forall a, preview_temp_path (f a) = preview_temp_path a) ->
  tidy (assign f).
Proof.
  intros Hf own a w H. split; [reflexivity|]. cbn. intros p.
  rewrite Hf. apply H.
Qed.

Lemma tidy_emit e : is_removal e = false -> tidy (emit e).
Proof.
  intros He own a w H. cbn. split.
  - destruct e; cbn in *; congruence.
  - intros p Hp. apply (owned_after_mono own [e]). now apply H.
Qed.

Lemma tidy_stop_preview_audio : tidy stop_preview_audio.
Proof.
  intros own a w H. unfold stop_preview_audio.
  run_cases; cbn; (split; [|discriminate]); rewrite ?andb_true_r;
    try reflexivity.
  all: apply str_in_true; auto.
Qed.

Lemma tidy_play_spotify_preview url : tidy (play_spotify_preview url).
Proof.
  intros own a w H. unfold play_spotify_preview, stop_preview_audio.
  run_cases; cbn.
  all: split;
    [ rewrite ?andb_true_r; try reflexivity; apply str_in_true; auto
    | try discriminate ].
  all: intros ? [= <-]; repeat constructor.
Qed.

Ltac tidy_step :=
  match goal with
  | |- tidy stop_preview_audio => apply tidy_stop_preview_audio
  | |- tidy (play_spotify_preview _) => apply tidy_play_spotify_preview
  | |- tidy (bind _ _) => apply tidy_bind; [|intros ?]
  | |- tidy (try_except _ _) => apply tidy_try; [|intros ?]
  | |- tidy (assign _) => apply tidy_assign; intros ?; reflexivity
  | |- tidy (effect _) => apply tidy_effect
  | |- tidy (emit _) => apply tidy_emit; reflexivity
  | |- tidy (messagebox _ _) => apply tidy_emit; reflexivity
  | |- tidy self => apply tidy_self
  | |- tidy outside => apply tidy_outside
  | |- tidy fault => apply tidy_fault
  | |- tidy (ret _) => apply tidy_ret
  | |- tidy (raise _) => apply tidy_raise
  | |- tidy (if ?c then _ else _) => destruct c
  | |- tidy (match ?x with _ => _ end) => destruct x
  | |- tidy ?m => progress (unfold m)
  | |- tidy (?m _) => progress (unfold m)
  | |- tidy (?m _ _) => progress (unfold m)
  | |- tidy (?m _ _ _) => progress (unfold m)
  end.

Lemma tidy_handler act : tidy (handler act).
Proof. destruct act; cbn [handler]; repeat tidy_step. Qed.

Lemma tidy_run acts : tidy (run acts).
Proof.
  induction acts as [|act rest IH]; cbn [run]; [apply tidy_ret|].
  apply tidy_bind; [|intros _; exact IH].
  unfold step. apply tidy_bind; [apply tidy_self|]. intros a.
  destruct (enabled a act); [|apply tidy_ret].
  unfold callback. apply tidy_try; [apply tidy_handler|].
  intros e. now apply tidy_emit.
Qed.

(** X17. Whatever the user does, every file the program removes is a
    temporary file it has made itself earlier in the session. *)
Theorem removes_only_preview_files acts client w :
  removes_own [] (trace (run acts (init client) w)) = true.
Proof.
  apply (tidy_run acts [] (init client) w). cbn. discriminate.
Qed.

(** ** Nothing is taken back *)

Lemma grows_refl l : grows l l.
Proof. intros q p H. exists p. repeat split; auto. Qed.

Lemma grows_trans l1 l2 l3 : grows l1 l2 -> grows l2 l3 -> grows l1 l3.
Proof.
  intros H1 H2 q p Hp.
  destruct (H1 q p Hp) as (p' & Hp' & U1 & N1 & B1 & I1).
  destruct (H2 q p' Hp') as (p'' & Hp'' & U2 & N2 & B2 & I2).
  exists p''. repeat split; try congruence.
  now transitivity (pl_items p').
Qed.

Lemma grows_snoc l p : grows l (l ++ [p]).
Proof.
  intros q p0 H. exists p0. repeat split; auto.
  now apply lookup_app_l_Some.
Qed.

Lemma grows_alter l i items : grows l (alter (add_items items) i l).
Proof.
  intros q p H. rewrite list_lookup_alter.
  destruct (decide (i = q)) as [->|].
  - rewrite H. cbn. eexists. split; [reflexivity|]. cbn.
    repeat split; auto. now apply prefix_app_r.
  - exists p. repeat split; auto.
Qed.

Section Keeping.

Context {A B : Type}.

Lemma keeping_ret (x : A) : keeping (ret x).
Proof. intros a w. split; [apply grows_refl | reflexivity]. Qed.

Lemma keeping_raise e : keeping (@raise A e).
Proof. intros a w. split; [apply grows_refl | reflexivity]. Qed.

Lemma keeping_bind (m : M A) (f : A -> M B) :
  keeping m -> (forall x, keeping (f x)) -> keeping (bind m f).
Proof.
  intros Hm Hf a w. unfold bind. specialize (Hm a w).
  destruct (m a w) as [[x|e] a1 w1 t1]; cbn in *; [|exact Hm].
  destruct Hm as [G1 S1]. specialize (Hf x a1 w1).
  destruct (f x a1 w1) as [o a2 w2 t2]; cbn in *. destruct Hf as [G2 S2].
  split; [now apply grows_trans with (playlists w1)|].
  now transitivity (skipped_songs a1).
Qed.

Lemma keeping_try (m : M A) (h : exn -> M A) :
  keeping m -> (forall e, keeping (h e)) -> keeping (try_except m h).
Proof.
  intros Hm Hh a w. unfold try_except. specialize (Hm a w).
  destruct (m a w) as [[x|e] a1 w1 t1]; cbn in *; [exact Hm|].
  destruct Hm as [G1 S1]. specialize (Hh e a1 w1).
  destruct (h e a1 w1) as [o a2 w2 t2]; cbn in *. destruct Hh as [G2 S2].
  split; [now apply grows_trans with (playlists w1)|].
  now transitivity (skipped_songs a1).
Qed.

End Keeping.

Lemma keeping_self : keeping self.
Proof. intros a w. split; [apply grows_refl | reflexivity]. Qed.

Lemma keeping_outside : keeping outside.
Proof. intros a w. split; [apply grows_refl | reflexivity]. Qed.

Lemma keeping_fault : keeping fault.
Proof.
  intros a w. unfold fault.
  destruct (faults w); (split; [apply grows_refl | reflexivity]).
Qed.

Lemma keeping_emit e : keeping (emit e).
Proof. intros a w. split; [apply grows_refl | reflexivity]. Qed.

Lemma keeping_effect g :
  (forall w, playlists (g w) = playlists w) -> keeping (effect g).
Proof.
  intros Hg a w. cbn. rewrite Hg. split; [apply grows_refl | reflexivity].
Qed.

Lemma keeping_assign f :
  (forall a, skipped_songs a `prefix_of` skipped_songs (f a)) ->
  keeping (assign f).
Proof. intros Hf a w. split; [apply grows_refl | apply Hf]. Qed.

Lemma keeping_sp_user_playlist_create user name public :
  keeping (sp_user_playlist_create user name public).
Proof.
  intros a w. unfold sp_user_playlist_create.
  run_cases; cbn; (split; [|reflexivity]);
    first [apply grows_refl | apply grows_snoc].
Qed.

Lemma keeping_sp_playlist_add_items pid items :
  keeping (sp_playlist_add_items pid items).
Proof.
  intros a w. unfold sp_playlist_add_items.
  run_cases; cbn; (split; [|reflexivity]);
    first [apply grows_refl | apply grows_alter].
Qed.

Lemma keeping_os_remove p : keeping (os_remove p).
Proof.
  intros a w. unfold os_remove.
  run_cases; cbn; (split; [apply grows_refl | reflexivity]).
Qed.

Lemma keeping_named_temporary_file : keeping named_temporary_file.
Proof. intros a w. split; [apply grows_refl | reflexivity]. Qed.

Lemma keeping_music_play : keeping music_play.
Proof.
  intros a w. unfold music_play.
  run_cases; cbn; (split; [apply grows_refl | reflexivity]).
Qed.

Ltac keeping_step :=
  match goal with
  | |- keeping (sp_user_playlist_create _ _ _) =>
      apply keeping_sp_user_playlist_create
  | |- keeping (sp_playlist_add_items _ _) =>
      apply keeping_sp_playlist_add_items
  | |- keeping (os_remove _) => apply keeping_os_remove
  | |- keeping named_temporary_file => apply keeping_named_temporary_file
  | |- keeping music_play => apply keeping_music_play
  | |- keeping (bind _ _) => apply keeping_bind; [|intros ?]
  | |- keeping (try_except _ _) => apply keeping_try; [|intros ?]
  | |- keeping (assign _) =>
      apply keeping_assign; intros ?;
      first [reflexivity | apply prefix_app_r; reflexivity]
  | |- keeping (effect _) => apply keeping_effect; intros ?; reflexivity
  | |- keeping (emit _) => apply keeping_emit
  | |- keeping (messagebox _ _) => apply keeping_emit
  | |- keeping self => apply keeping_self
  | |- keeping outside => apply keeping_outside
  | |- keeping fault => apply keeping_fault
  | |- keeping (ret _) => apply keeping_ret
  | |- keeping (raise _) => apply keeping_raise
  | |- keeping (if ?c then _ else _) => destruct c
  | |- keeping (match ?x with _ => _ end) => destruct x
  | |- keeping ?m => progress (unfold m)
  | |- keeping (?m _) => progress (unfold m)
  | |- keeping (?m _ _) => progress (unfold m)
  | |- keeping (?m _ _ _) => progress (unfold m)
  end.

Lemma keeping_handler act : keeping (handler act).
Proof. destruct act; cbn [handler]; repeat keeping_step. Qed.

Lemma keeping_run acts : keeping (run acts).
Proof.
  induction acts as [|act rest IH]; cbn [run]; [apply keeping_ret|].
  apply keeping_bind; [|intros _; exact IH].
  unfold step. apply keeping_bind; [apply keeping_self|]. intros a.
  destruct (enabled a act); [|apply keeping_ret].
  unfold callback. apply keeping_try; [apply keeping_handler|].
  intros e. apply keeping_emit.
Qed.

(** X18. Nothing is taken back: over any sequence of user actions,
    from any state, every playlist of the catalog stays under its id
    with its owner, name and visibility, its earlier items are the
    first of its items afterwards, and the earlier skipped list is the
    beginning of the skipped list afterwards -- also across the
    selection of another directory. *)
Theorem session_only_adds acts a w :
  let r := run acts a w in
  grows (playlists w) (playlists (world r))
  /\ skipped_songs a `prefix_of` skipped_songs (app r).
Proof. apply keeping_run. Qed.

(** ** The order of files with the same key *)

(** X19. Files whose lower-cased basenames are equal are presented in the
    order in which the walk found them. *)
Theorem equal_names_keep_walk_order directory name a w k :
  directory <> EmptyString ->
  let r := select_directory directory name a w in
  filter (fun p => sort_key p = k) (audio_files (app r))
  = filter (fun p => sort_key p = k)
      (get_audio_files directory (dir_tree w directory)).
Proof.
  intros Hd. cbn zeta.
  rewrite select_directory_files by (now destruct directory).
  apply list_sort_stable.
Qed.

Lemma equal_names_keep_walk_order_witness :
  let w := mkWorld "me" [] (fun _ => []) (fun _ => None)
             (fun _ => Node ["b.mp3"; "B.mp3"; "a.mp3"]
                         [("x", Node ["B.MP3"] [])])
             (fun _ => MutagenFalsy) [] 0%Z None false [] in
  let r := select_directory "/m" None (init None) w in
  "/m" <> EmptyString
  /\ audio_files (app r) = ["/m/a.mp3"; "/m/b.mp3"; "/m/B.mp3"; "/m/x/B.MP3"]
  /\ filter (fun p => sort_key p = "b.mp3") (audio_files (app r))
     = ["/m/b.mp3"; "/m/B.mp3"; "/m/x/B.MP3"].
Proof.
  intros w r.
  assert (H : "/m" <> EmptyString) by discriminate.
  split; [exact H|]. split; [reflexivity|].
  exact (equal_names_keep_walk_order "/m" None (init None) w "b.mp3" H).
Defined.

(** ** Browsing *)

Lemma select_directory_world directory name a w :
  playlists (world (select_directory directory name a w)) = playlists w.
Proof.
  unfold select_directory.
  destruct (PyStr.nonempty directory); [|reflexivity].
  unfold_prims.
  match goal with
  | |- context [show_file_prompt ?a' ?w'] =>
      destruct (passive_show_file_prompt a' w') as (_ & Hw & _);
      destruct (show_file_prompt a' w') as [o a1 w1 t1]
  end.
  cbn in *. exact Hw.
Qed.

Lemma skip_file_world a w :
  playlists (world (skip_file a w)) = playlists w.
Proof. unfold skip_file. run_cases; summaries; finish. Qed.

Lemma handler_world act a w :
  is_add_action act = false ->
  playlists (world (handler act a w)) = playlists w.
Proof.
  destruct act; cbn [is_add_action handler]; intros Hadd;
    try discriminate; try reflexivity;
    try apply select_directory_world; try apply skip_file_world.
  all: match goal with
       | |- playlists (world (?m ?x ?y)) = _ =>
           assert (Hp : passive m) by auto with passive;
           exact (proj1 (proj2 (Hp x y)))
       end.
Qed.

(** X20. Only the two add buttons touch the catalog: a sequence of
    actions without them -- searches, previews, skips, the selection
    of a directory -- leaves the playlists and the stored playlist id
    as they are, and makes no catalog call other than searches. *)
Theorem only_adds_touch_catalog acts a w :
  forallb (fun act => negb (is_add_action act)) acts = true ->
  let r := run acts a w in
  playlists (world r) = playlists w
  /\ playlist_id (app r) = playlist_id a
  /\ quiet (trace r) = true.
Proof.
  revert a w. induction acts as [|act rest IH]; intros a w;
    [repeat split|].
  cbn [forallb]. intros [Hact Hrest]%andb_prop. apply negb_true_iff in Hact.
  cbn zeta. destruct (run_cons act rest a w) as (-> & -> & ->).
  destruct (IH (app (step act a w)) (world (step act a w)) Hrest)
    as (I1 & I2 & I3).
  cbn zeta in *. rewrite I1, I2, quiet_app, I3, (step_quiet act a w Hact).
  unfold step. unfold_prims. destruct (enabled a act); [|repeat split].
  destruct (callback_result (handler act) a w) as (Ha & Hw & _).
  pose proof (handler_world act a w Hact) as Hp.
  destruct (handler_keeps act a w Hact) as [Hi _].
  destruct (callback (handler act) a w) as [o a1 w1 t1]. cbn in *.
  subst a1 w1. auto.
Qed.

Lemma only_adds_touch_catalog_witness :
  let r0 := demo_start [] in
  let acts := [PressSearch; PressSkip; PressPlayLocal;
               PressSelectDirectory "/x" None] in
  forallb (fun act => negb (is_add_action act)) acts = true
  /\ playlists (world (run acts (app r0) (world r0))) = playlists (world r0).
Proof.
  intros r0 acts.
  assert (H : forallb (fun act => negb (is_add_action act)) acts = true)
    by reflexivity.
  split; [exact H|].
  exact (proj1 (only_adds_touch_catalog acts (app r0) (world r0) H)).
Defined.

(** ** Revealing a file *)

Section DirnameFacts.

Local Open Scope Z_scope.

Local Notation "a ++ b" := (String.append a b) : string_scope.
Local Abbreviation len s := (Z.of_nat (String.length s)).

Lemma str_take_app_length (a b : string) :
  PyStr.take (String.length a) (a ++ b)%string = a.
Proof.
  induction a as [|x a IH]; rewrite ?append_nil_l, ?append_cons; simpl.
  - now destruct b.
  - now rewrite IH.
Qed.

Lemma rstrip_char_id c s :
  PyStr.endswith c s = false -> Explorer.rstrip_char c s = s.
Proof.
  induction s as [|a s IH]; [reflexivity|]. simpl.
  destruct s as [|b s].
  - intros ->. reflexivity.
  - intros H. rewrite (IH H). reflexivity.
Qed.

Lemma rstrip_char_snoc c s :
  Explorer.rstrip_char c (s ++ String c EmptyString)%string
  = Explorer.rstrip_char c s.
Proof.
  induction s as [|a s IH]; rewrite ?append_nil_l, ?append_cons; simpl.
  - now rewrite Ascii.eqb_refl.
  - now rewrite IH.
Qed.

Lemma times_endswith c n s :
  (s ++ String c EmptyString)%string = Explorer.times c n ->
  s = EmptyString \/ PyStr.endswith c s = true.
Proof.
  revert n. induction s as [|a s IH]; intros n; [now left|].
  rewrite append_cons. destruct n as [|n]; [discriminate|]. simpl.
  intros [= -> H]. right. destruct (IH n H) as [->|E].
  - apply Ascii.eqb_refl.
  - destruct s; [discriminate | exact E].
Qed.

Lemma dirname_join root f :
  PyStr.free_of Path.sep f = true ->
  PyStr.endswith Path.sep root = false ->
  Explorer.dirname (Path.join root f) = root.
Proof.
  intros Hf Hr. unfold Path.join.
  assert (Hs : PyStr.startswith Path.sep f = false).
  { destruct f as [|x f]; simpl in *; [reflexivity|].
    apply andb_prop in Hf as [Hx _]. now apply negb_true_iff in Hx. }
  rewrite Hs, Hr. unfold Explorer.dirname, PyStr.slice_to.
  destruct root as [|x root].
  - cbn [PyStr.nonempty negb orb]. rewrite append_nil_l.
    rewrite (rfind_free _ _ Hf). reflexivity.
  - cbn [PyStr.nonempty negb orb].
    set (r := String x root) in *.
    rewrite rfind_app. cbn [PyStr.rfind].
    rewrite (rfind_free _ _ Hf). change (0 <=? -1) with false. cbv iota.
    rewrite Ascii.eqb_refl. change (0 <=? 0) with true. cbv iota.
    replace (Z.to_nat (len r + 0 + 1))
      with (String.length (r ++ String Path.sep EmptyString)%string)
      by (rewrite length_append; simpl; lia).
    replace (r ++ String Path.sep f)%string
      with ((r ++ String Path.sep EmptyString) ++ f)%string
      by now rewrite append_assoc.
    rewrite str_take_app_length.
    assert (Hn : PyStr.nonempty (r ++ String Path.sep EmptyString)%string
                 = true) by reflexivity.
    rewrite Hn. cbn [andb].
    destruct (String.eqb _ _) eqn:E.
    + apply String.eqb_eq, times_endswith in E as [E|E];
        [discriminate | congruence].
    + cbn [negb]. rewrite rstrip_char_snoc. now apply rstrip_char_id.
Qed.

End DirnameFacts.

(** X21. On a system other than Windows and macOS, revealing a file
    that the walk found as [os.path.join(root, f)], with [root] not
    ending in the separator, opens [root] itself with [xdg-open]: one
    process, and one error box if it cannot be started. *)
Theorem reveal_opens_walk_root h root f :
  Explorer.os_path_exists h (Path.join root f) = true ->
  Explorer.system_name h <> "Windows" ->
  Explorer.system_name h <> "Darwin" ->
  PyStr.free_of Path.sep f = true ->
  PyStr.endswith Path.sep root = false ->
  Explorer.reveal_in_explorer h (Path.join root f)
  = if Explorer.popen_raises h
    then [Explorer.Popen (Explorer.ArgList ["xdg-open"; root]) false;
          Explorer.ShowError Explorer.UnableToOpen]
    else [Explorer.Popen (Explorer.ArgList ["xdg-open"; root]) true].
Proof.
  intros He Hw Hd Hf Hr. unfold Explorer.reveal_in_explorer.
  rewrite He. cbn [negb].
  apply String.eqb_neq in Hw, Hd. rewrite Hw, Hd.
  now rewrite (dirname_join root f Hf Hr).
Qed.

Lemma reveal_opens_walk_root_witness :
  let h := Explorer.mkHost "Linux" (fun _ => true) (fun p => p) false in
  Path.join "/music/live" "C.flac" = "/music/live/C.flac"
  /\ Explorer.reveal_in_explorer h "/music/live/C.flac"
     = [Explorer.Popen (Explorer.ArgList ["xdg-open"; "/music/live"])
          true].
Proof.
  intros h.
  assert (H1 : Explorer.os_path_exists h (Path.join "/music/live" "C.flac") = true)
    by reflexivity.
  assert (H2 : Explorer.system_name h <> "Windows") by discriminate.
  assert (H3 : Explorer.system_name h <> "Darwin") by discriminate.
  assert (H4 : PyStr.free_of Path.sep "C.flac" = true) by reflexivity.
  assert (H5 : PyStr.endswith Path.sep "/music/live" = false)
    by reflexivity.
  split; [reflexivity|].
  exact (reveal_opens_walk_root h "/music/live" "C.flac" H1 H2 H3 H4 H5).
Defined.
